(** * The analytics SDK client: event buffer, size trigger, flush and requeue

    Embedding of [packages/sdk-python/analytics_sdk/client.py].

    The client object is a record; its methods are written once in a small
    state monad whose computations either return or block for ever on
    [threading.Lock.acquire] (module [Seq]), and once more as a control-flow
    machine with one program counter per thread, which gives the
    interleavings of producer threads and of the timer thread (module
    [Machine]).  The two are related by [solo_track] and [solo_flush]: a
    thread of the machine that runs alone does what the monadic method
    says. *)

From stdpp Require Import base option list strings.
From Stdlib Require Import ZArith QArith.

Local Close Scope Q_scope.

Local Open Scope string_scope.
Local Open Scope list_scope.

(** ** Data model *)

(** Thread identifiers.  Thread [timer_tid] is the daemon thread started by
    [_start_flush_timer]. *)
Definition tid := nat.
Definition timer_tid : tid := 0.

(** [Dict[str, Any]]: the JSON-like values a caller may put in [properties]. *)
#[local] Unset Elimination Schemes.
Inductive pyval :=
| PyNone
| PyBool (b : bool)
| PyInt (z : Z)
| PyFloat (q : Q)
| PyStr (s : string)
| PyList (l : list pyval)
| PyDict (d : list (string * pyval)).

#[local] Set Elimination Schemes.

Definition dict := list (string * pyval).

(** The dict literal of lines 51-57. *)
Record Event := mkEvent {
  eventName : string;
  properties : dict;
  userId : option string;
  sessionId : string;
  timestamp : Q
}.

(** The attributes set by [__init__] (lines 22-30).  [lock] is the state of the
    [threading.Lock]: [None] when unlocked, [Some t] when locked, [t] being the
    thread whose [acquire] succeeded.  The primitive lock does not record [t]
    and is not reentrant; the model keeps [t] only to say who is inside a
    [with self.lock] block. *)
Record Analytics := mkAnalytics {
  api_url : option string;
  api_key : option string;
  batch_size : Z;
  flush_interval : Z;
  queue : list Event;
  user_id : option string;
  session_id : string;
  lock : option tid;
  flush_thread : option tid
}.

(** The request built at lines 75-83. *)
Record Request := mkRequest {
  req_url : string;
  req_events : list Event;
  req_api_key : option string;
  req_timeout : Z
}.

(** What [requests.post(...)] followed by [raise_for_status()] does: nothing
    (a 2xx answer), or an exception with message [e]. *)
Inductive response :=
| Accepted
| Raised (e : string).

(** What an observer sees of a run. *)
Inductive action :=
| ActAppend (e : Event)                    (* line 60 *)
| ActFlush                                 (* flush() entered, line 65 *)
| ActPost (r : Request) (resp : response)  (* lines 75-84 *)
| ActPrint (s : string).                   (* line 86 *)

(** The client object, the collaborator ([network i] is what the [i]-th
    request, counted from 0, will meet) and the actions so far. *)
Record World := mkWorld {
  self : Analytics;
  network : nat → response;
  trace : list action
}.

(** The calls application code makes; [now] is what [time.time()] returns
    during the call. *)
Inductive call :=
| CIdentify (uid : string) (traits : option dict)
| CTrack (event_name : string) (properties : option dict) (now : Q)
| CFlush.

(** *** Field updates *)

Definition set_queue (q : list Event) (a : Analytics) : Analytics :=
  mkAnalytics (api_url a) (api_key a) (batch_size a) (flush_interval a)
              q (user_id a) (session_id a) (lock a) (flush_thread a).

Definition set_user_id (u : option string) (a : Analytics) : Analytics :=
  mkAnalytics (api_url a) (api_key a) (batch_size a) (flush_interval a)
              (queue a) u (session_id a) (lock a) (flush_thread a).

Definition set_lock (l : option tid) (a : Analytics) : Analytics :=
  mkAnalytics (api_url a) (api_key a) (batch_size a) (flush_interval a)
              (queue a) (user_id a) (session_id a) l (flush_thread a).

Definition with_self (f : Analytics → Analytics) (w : World) : World :=
  mkWorld (f (self w)) (network w) (trace w).

Definition observe (x : action) (w : World) : World :=
  mkWorld (self w) (network w) (trace w ++ [x]).

(** *** Reading the trace *)

Definition posts (w : World) : list (Request * response) :=
  omap (λ x, match x with ActPost r resp => Some (r, resp) | _ => None end) (trace w).

(** The batches the collaborator accepted, in order. *)
Definition delivered_batches (w : World) : list (list Event) :=
  omap (λ x, match x with
             | ActPost r Accepted => Some (req_events r)
             | _ => None
             end) (trace w).

Definition delivered (w : World) : list Event := concat (delivered_batches w).

Definition appended (w : World) : list Event :=
  omap (λ x, match x with ActAppend e => Some e | _ => None end) (trace w).

(** How many times [flush] has been entered. *)
Definition flush_calls (w : World) : nat :=
  length (omap (λ x, match x with ActFlush => Some tt | _ => None end) (trace w)).

(** [time.sleep(secs)], line 96, with [secs] an [int]: it raises [ValueError]
    for a negative length and [OverflowError] for one that does not fit the
    signed 64-bit count of nanoseconds in which CPython keeps it. *)
Definition max_sleep : Z := 9223372036.

Definition sleep_raises (secs : Z) : bool := (secs <? 0)%Z || (max_sleep <? secs)%Z.

(** ** The methods, run by one thread *)

Module Seq.

(** A computation returns a value and a world, or comes to a
    [lock.acquire()] that finds the lock taken.  With one thread running there
    is nobody to release it, so the thread waits for ever: [Blocked] carries
    the world it waits in. *)
Inductive result (A : Type) :=
| Returned (a : A) (w : World)
| Blocked (w : World).
Arguments Returned {A} a w.
Arguments Blocked {A} w.

Definition M (A : Type) := World → result A.

#[export] Instance M_ret : MRet M := λ A a w, Returned a w.

#[export] Instance M_bind : MBind M :=
  λ A B k m w, match m w with
               | Returned a w' => k a w'
               | Blocked w' => Blocked w'
               end.

Definition world_of {A} (r : result A) : World :=
  match r with Returned _ w => w | Blocked w => w end.

Definition returns {A} (r : result A) : bool :=
  match r with Returned _ _ => true | Blocked _ => false end.

(** *** Primitive effects *)

Definition get {A} (f : Analytics → A) : M A := λ w, Returned (f (self w)) w.
Definition modify (f : Analytics → Analytics) : M unit := λ w, Returned tt (with_self f w).
Definition emit (x : action) : M unit := λ w, Returned tt (observe x w).

(** [self.lock.acquire()] of a [threading.Lock]. *)
Definition acquire (t : tid) : M unit :=
  λ w, match lock (self w) with
       | None => Returned tt (with_self (set_lock (Some t)) w)
       | Some _ => Blocked w
       end.

Definition release : M unit := modify (set_lock None).

(** [with self.lock: body] *)
Definition with_lock {A} (t : tid) (body : M A) : M A :=
  acquire t;; x ← body; release;; mret x.

(** [str(x)] inside an f-string, for a value that is a string or [None]. *)
Definition fstr (x : option string) : string := default "None" x.

(** [requests.post(url, json={"events": events}, headers=..., timeout=10)]
    and [response.raise_for_status()], lines 75-84. *)
Definition request_for (a : Analytics) (events : list Event) : Request :=
  mkRequest (fstr (api_url a) ++ "/api/v1/events") events (api_key a) 10.

Definition post (events : list Event) : M response :=
  λ w, let resp := network w (length (posts w)) in
       Returned resp (observe (ActPost (request_for (self w) events) resp) w).

Definition print (s : string) : M unit := emit (ActPrint s).

(** *** [Analytics.identify], lines 33-41 *)
Definition identify (t : tid) (uid : string) (traits : option dict) : M unit :=
  modify (set_user_id (Some uid)).

(** *** [Analytics.flush], lines 65-89 *)

(** Lines 70-72. *)
Definition drain (t : tid) : M (list Event) :=
  with_lock t (events ← get queue; modify (set_queue []);; mret events).

(** Lines 74-89: the [try] statement. *)
Definition deliver (t : tid) (events : list Event) : M unit :=
  resp ← post events;
  match resp with
  | Accepted => mret tt
  | Raised e =>
      print ("Failed to send events: " ++ e);;
      with_lock t (q ← get queue; modify (set_queue (events ++ q)))
  end.

Definition flush (t : tid) : M unit :=
  emit ActFlush;;
  q ← get queue;
  match q with
  | [] => mret tt
  | _ :: _ => events ← drain t; deliver t events
  end.

(** *** [Analytics.track], lines 43-63 *)

(** [properties or {}] *)
Definition or_empty (properties : option dict) : dict :=
  match properties with
  | Some (kv :: d) => kv :: d
  | _ => []
  end.

(** Lines 51-57; [now] is what [time.time()] returns. *)
Definition make_event (event_name : string) (properties : option dict) (now : Q)
    (a : Analytics) : Event :=
  mkEvent event_name (or_empty properties) (user_id a) (session_id a) now.

Definition track (t : tid) (event_name : string) (properties : option dict) (now : Q)
    : M unit :=
  event ← get (make_event event_name properties now);
  with_lock t (
    q ← get queue;
    modify (set_queue (q ++ [event]));;
    emit (ActAppend event);;
    q ← get queue;
    n ← get batch_size;
    if decide (n ≤ Z.of_nat (length q))%Z then flush t else mret tt).

(** *** [Analytics.__init__], lines 12-31, and [init], lines 110-112 *)

(** [uuid] is the text of [uuid.uuid4()].  [_start_flush_timer] starts the
    daemon thread [timer_tid], which does nothing as long as it is not
    scheduled: its loop is in section [Machine]. *)
Definition new_Analytics (url key : option string) (bsize interval : Z) (uuid : string)
    : Analytics :=
  mkAnalytics url key bsize interval [] None ("session-" ++ uuid) None (Some timer_tid).

Definition init (url key : option string) (uuid : string) : Analytics :=
  new_Analytics url key 10 5 uuid.

(** The world right after construction. *)
Definition boot (a : Analytics) (net : nat → response) : World := mkWorld a net [].

(** *** Application code: a thread making calls one after the other

    These are the runs in which no other thread, the timer thread included,
    takes a step between the first call and the last ([run_calls_exec]). *)

Definition run_call (t : tid) (c : call) : M unit :=
  match c with
  | CIdentify uid traits => identify t uid traits
  | CTrack event_name properties now => track t event_name properties now
  | CFlush => flush t
  end.

Fixpoint run_calls (t : tid) (cs : list call) : M unit :=
  match cs with
  | [] => mret tt
  | c :: cs' => run_call t c;; run_calls t cs'
  end.

Definition is_identify (c : call) : bool :=
  match c with CIdentify _ _ => true | _ => false end.

Definition is_track (c : call) : bool :=
  match c with CTrack _ _ _ => true | _ => false end.

(** No user is known and no event so far carries one. *)
Definition anonymous (w : World) : Prop :=
  user_id (self w) = None
  ∧ Forall (λ e, userId e = None) (appended w)
  ∧ Forall (λ e, userId e = None) (queue (self w)).

(** *** Collaborators and clients used in examples *)

Definition always_accepts : nat → response := λ _, Accepted.

Definition fails_once : nat → response :=
  λ i, match i with O => Raised "ConnectionError" | S _ => Accepted end.

(** The client of the example application, with a chosen batch size. *)
Definition example_client (bsize : Z) : Analytics :=
  new_Analytics (Some "http://localhost:3001/api/v1") (Some "dev_key_123") bsize 5
                "3f2b".

Definition always_fails : nat → response := λ _, Raised "ConnectionError".

(** The client of [examples/django-ecommerce-app.py], lines 65-68:
    [init(api_url="http://localhost:3001/api/v1", api_key="dev_key_123")]. *)
Definition example_analytics (uuid : string) : Analytics :=
  init (Some "http://localhost:3001/api/v1") (Some "dev_key_123") uuid.

(** [identify_user] of the example, lines 70-76; [iso_now] is the text of
    [datetime.now().isoformat()]. *)
Definition identify_user (t : tid) (uid email account_type iso_now : string) : M unit :=
  identify t uid (Some [("email", PyStr email);
                        ("accountType", PyStr account_type);
                        ("identifiedAt", PyStr iso_now)]).

(** The same call with the traits left out. *)
Definition forget_traits (c : call) : call :=
  match c with
  | CIdentify uid _ => CIdentify uid None
  | _ => c
  end.

(** *** Worlds met along the way *)

(** After [flush] is entered and lines 71-72 have run on a free buffer. *)
Definition drained (w : World) : World := with_self (set_queue []) (observe ActFlush w).

(** After line 60. *)
Definition buffered (event : Event) (w : World) : World :=
  observe (ActAppend event) (with_self (set_queue (queue (self w) ++ [event])) w).

End Seq.

(** ** The methods, run by several threads *)

Module Machine.

(** Where [flush] returns to: the application, line 63 of [track], or the
    loop of the timer thread (line 97). *)
Inductive ret :=
| RetCaller
| RetTrack
| RetTimer.

(** The program counter of a thread, with its local variables.  Each names
    the line the thread is about to execute. *)
Inductive pc :=
| Idle                                           (* in application code *)
| TimerSleep                                     (* line 96 *)
| TrackAcquire (event : Event)                   (* line 59, entering *)
| TrackAppend (event : Event)                    (* line 60 *)
| TrackTest                                      (* line 62 *)
| TrackRelease                                   (* line 59, leaving *)
| FlushTest (k : ret)                            (* line 67 *)
| FlushAcquire (k : ret)                         (* line 70, entering *)
| FlushCopy (k : ret)                            (* line 71 *)
| FlushClear (events : list Event) (k : ret)     (* line 72 *)
| FlushRelease (events : list Event) (k : ret)   (* line 70, leaving *)
| FlushPost (events : list Event) (k : ret)      (* lines 75-84 *)
| FlushPrint (events : list Event) (e : string) (k : ret)  (* line 86 *)
| RequeueAcquire (events : list Event) (k : ret) (* line 88, entering *)
| RequeueSet (events : list Event) (k : ret)     (* line 89 *)
| RequeueRelease (k : ret)                       (* line 88, leaving *)
| Dead.                                          (* the thread's target raised *)

Definition resume (k : ret) : pc :=
  match k with
  | RetCaller => Idle
  | RetTrack => TrackRelease
  | RetTimer => TimerSleep
  end.

Record state := mkState {
  world : World;
  threads : list pc
}.

Definition acquire_at (t : tid) (next : pc) (w : World) : option (pc * World) :=
  match lock (self w) with
  | None => Some (next, with_self (set_lock (Some t)) w)
  | Some _ => None
  end.

(** One step of thread [t] inside a method or inside the timer loop; [None]
    when the thread waits for the lock, is in application code, or is over.
    The exception [time.sleep] raises at line 96 is caught nowhere: it ends
    the timer thread (the traceback goes to stderr, which is not recorded). *)
Definition step_pc (t : tid) (p : pc) (w : World) : option (pc * World) :=
  match p with
  | Idle => None
  | TimerSleep =>
      if sleep_raises (flush_interval (self w))
      then Some (Dead, w)
      else Some (FlushTest RetTimer, observe ActFlush w)
  | TrackAcquire event => acquire_at t (TrackAppend event) w
  | TrackAppend event =>
      Some (TrackTest,
            observe (ActAppend event)
                    (with_self (set_queue (queue (self w) ++ [event])) w))
  | TrackTest =>
      if decide (batch_size (self w) ≤ Z.of_nat (length (queue (self w))))%Z
      then Some (FlushTest RetTrack, observe ActFlush w)
      else Some (TrackRelease, w)
  | TrackRelease => Some (Idle, with_self (set_lock None) w)
  | FlushTest k =>
      match queue (self w) with
      | [] => Some (resume k, w)
      | _ :: _ => Some (FlushAcquire k, w)
      end
  | FlushAcquire k => acquire_at t (FlushCopy k) w
  | FlushCopy k => Some (FlushClear (queue (self w)) k, w)
  | FlushClear events k => Some (FlushRelease events k, with_self (set_queue []) w)
  | FlushRelease events k => Some (FlushPost events k, with_self (set_lock None) w)
  | FlushPost events k =>
      match Seq.post events w with
      | Seq.Returned Accepted w' => Some (resume k, w')
      | Seq.Returned (Raised e) w' => Some (FlushPrint events e k, w')
      | Seq.Blocked _ => None
      end
  | FlushPrint events e k =>
      Some (RequeueAcquire events k, observe (ActPrint ("Failed to send events: " ++ e)) w)
  | RequeueAcquire events k => acquire_at t (RequeueSet events k) w
  | RequeueSet events k =>
      Some (RequeueRelease k, with_self (set_queue (events ++ queue (self w))) w)
  | RequeueRelease k => Some (resume k, with_self (set_lock None) w)
  | Dead => None
  end.

(** A thread in application code starts a call: [identify] is a single
    assignment, [track] builds the event (lines 51-57), [flush] is entered. *)
Definition start_call (c : call) (w : World) : pc * World :=
  match c with
  | CIdentify uid _ => (Idle, with_self (set_user_id (Some uid)) w)
  | CTrack event_name properties now =>
      (TrackAcquire (Seq.make_event event_name properties now (self w)), w)
  | CFlush => (FlushTest RetCaller, observe ActFlush w)
  end.

(** What the scheduler and the application do next. *)
Inductive move :=
| Run (t : tid)
| Invoke (t : tid) (c : call).

Definition step (m : move) (σ : state) : option state :=
  match m with
  | Run t =>
      p ← threads σ !! t;
      '(p', w') ← step_pc t p (world σ);
      Some (mkState w' (<[t := p']> (threads σ)))
  | Invoke t c =>
      p ← threads σ !! t;
      match p with
      | Idle => let '(p', w') := start_call c (world σ) in
                Some (mkState w' (<[t := p']> (threads σ)))
      | _ => None
      end
  end.

Fixpoint exec (ms : list move) (σ : state) : option state :=
  match ms with
  | [] => Some σ
  | m :: ms' => σ' ← step m σ; exec ms' σ'
  end.

(** The state right after [Analytics(...)] returned: the timer thread sleeps,
    [n] application threads hold a reference to the client. *)
Definition start (a : Analytics) (net : nat → response) (n : nat) : state :=
  mkState (Seq.boot a net) (TimerSleep :: replicate n Idle).

(** *** Reading a state *)

(** Is the thread inside a [with self.lock] block?  A [flush] called from
    [track] runs inside the block of line 59. *)
Definition holds (p : pc) : bool :=
  match p with
  | TrackAppend _ | TrackTest | TrackRelease => true
  | FlushTest RetTrack | FlushAcquire RetTrack => true
  | FlushCopy _ | FlushClear _ _ | FlushRelease _ _ => true
  | RequeueSet _ _ | RequeueRelease _ => true
  | _ => false
  end.

(** The batch a thread has taken out of the queue and not yet handed to the
    collaborator or put back. *)
Definition in_flight (p : pc) : list Event :=
  match p with
  | FlushRelease events _ | FlushPost events _ | FlushPrint events _ _
  | RequeueAcquire events _ | RequeueSet events _ => events
  | _ => []
  end.

Definition all_in_flight (σ : state) : list Event := concat (in_flight <$> threads σ).

(** No thread is between a drain and the end of its [flush]. *)
Definition settled (σ : state) : Prop := Forall (λ p, in_flight p = []) (threads σ).

(** A [flush] that got past line 70 took the lock there, so it was not called
    from inside the [with] block of [track]. *)
Definition well_nested (p : pc) : bool :=
  match p with
  | FlushCopy RetTrack | FlushClear _ RetTrack | FlushRelease _ RetTrack
  | FlushPost _ RetTrack | FlushPrint _ _ RetTrack | RequeueAcquire _ RetTrack
  | RequeueSet _ RetTrack | RequeueRelease RetTrack => false
  | _ => true
  end.

(** The lock is taken exactly when some thread is inside a [with] block, and
    by that thread; between lines 71 and 72 the copy is the queue. *)
Definition lock_discipline (σ : state) : Prop :=
  ∀ t p, threads σ !! t = Some p →
    well_nested p = true
    ∧ (holds p = true ↔ lock (self (world σ)) = Some t)
    ∧ (∀ events k, p = FlushClear events k → queue (self (world σ)) = events).

(** Every event appended so far is in exactly one place: delivered, in
    flight, or in the queue. *)
Definition conserved (σ : state) : Prop :=
  appended (world σ) ≡ₚ delivered (world σ) ++ all_in_flight σ ++ queue (self (world σ)).

(** What a step of thread [t] from [p] to [p'] keeps and changes. *)
Record step_effect (t : tid) (p : pc) (w : World) (p' : pc) (w' : World) : Prop := {
  eff_nested : well_nested p' = true;
  eff_holds : holds p' = true ↔ lock (self w') = Some t;
  eff_copy : ∀ events k, p' = FlushClear events k → queue (self w') = events;
  eff_others : ∀ t', t' ≠ t → lock (self w') = Some t' ↔ lock (self w) = Some t';
  eff_queue : queue (self w') = queue (self w) ∨ holds p = true;
  eff_conserved : ∀ rest,
    appended w ≡ₚ delivered w ++ (in_flight p ++ rest) ++ queue (self w) →
    appended w' ≡ₚ delivered w' ++ (in_flight p' ++ rest) ++ queue (self w')
}.

(** The events a thread holds in its local variables. *)
Definition carried (p : pc) : list Event :=
  match p with
  | TrackAcquire event | TrackAppend event => [event]
  | FlushClear events _ | FlushRelease events _ | FlushPost events _
  | FlushPrint events _ _ | RequeueAcquire events _ | RequeueSet events _ => events
  | _ => []
  end.

(** The request is the one lines 75-83 build from the constructor's
    arguments, and its events carry the session id [sid]. *)
Definition request_from (a0 : Analytics) (sid : string) (x : Request * response) : Prop :=
  req_url x.1 = String.append (Seq.fstr (api_url a0)) "/api/v1/events"
  ∧ req_api_key x.1 = api_key a0
  ∧ req_timeout x.1 = 10%Z
  ∧ Forall (λ e, sessionId e = sid) (req_events x.1).

(** The client still has the configuration and the session id of [a0], and
    every event it has seen carries that session id. *)
Definition stamped (a0 : Analytics) (σ : state) : Prop :=
  (api_url (self (world σ)) = api_url a0
   ∧ api_key (self (world σ)) = api_key a0
   ∧ batch_size (self (world σ)) = batch_size a0
   ∧ flush_interval (self (world σ)) = flush_interval a0
   ∧ session_id (self (world σ)) = session_id a0
   ∧ flush_thread (self (world σ)) = flush_thread a0)
  ∧ Forall (λ e, sessionId e = session_id a0) (queue (self (world σ)))
  ∧ Forall (λ e, sessionId e = session_id a0) (appended (world σ))
  ∧ Forall (request_from a0 (session_id a0)) (posts (world σ))
  ∧ Forall (λ p, Forall (λ e, sessionId e = session_id a0) (carried p)) (threads σ).



(** The thread that makes a move. *)
Definition thread_of (m : move) : tid :=
  match m with
  | Run t => t
  | Invoke t _ => t
  end.

(** The application calls [flush] itself. *)
Definition calls_flush (m : move) : bool :=
  match m with
  | Invoke _ CFlush => true
  | _ => false
  end.

(** The thread is not in a [flush] it called from application code or from
    the timer loop: it is in application code, in [track], in the [flush]
    that [track] called, or over. *)
Definition outside_flush (p : pc) : bool :=
  match p with
  | Idle | TrackAcquire _ | TrackAppend _ | TrackTest | TrackRelease
  | FlushTest RetTrack | FlushAcquire RetTrack | Dead => true
  | _ => false
  end.

(** *** Schedules used in examples *)

(** A whole [track] of thread [t] with nothing in between: the call, then
    lines 59, 60, 62 and the release. *)
Definition track_alone (t : tid) (event_name : string) (now : Q) : list move :=
  Invoke t (CTrack event_name None now) :: replicate 4 (Run t).

(** The timer thread wakes up and goes through [flush] up to the request. *)
Definition timer_drains : list move := replicate 6 (Run timer_tid).

(** The timer thread gets the answer; on a failure it prints and puts the
    batch back. *)
Definition timer_gets_failure : list move := replicate 5 (Run timer_tid).
Definition timer_gets_success : list move := replicate 1 (Run timer_tid).

(** Two events are tracked, the timer drains them, two more are tracked
    while the request is on its way, the request fails, and the next timer
    flush goes through. *)
Definition retry_after_appends : list move :=
  track_alone 1 "a" 0 ++ track_alone 1 "b" 1
  ++ timer_drains
  ++ track_alone 1 "c" 2 ++ track_alone 1 "d" 3
  ++ timer_gets_failure
  ++ timer_drains ++ timer_gets_success.

(** The first part of it, up to the moment the failed batch is back in the
    queue. *)
Definition requeue_after_appends : list move :=
  track_alone 1 "a" 0 ++ track_alone 1 "b" 1
  ++ timer_drains
  ++ track_alone 1 "c" 2 ++ track_alone 1 "d" 3
  ++ timer_gets_failure.

(** The timer finds the queue non-empty at line 67; before it takes the
    lock, thread 1 calls [flush] and delivers the event. *)
Definition timer_loses_race : list move :=
  track_alone 1 "a" 0
  ++ replicate 2 (Run timer_tid)
  ++ Invoke 1 CFlush :: replicate 6 (Run 1).

(** The world a schedule leads to (the world it started in, if it cannot be
    run). *)
Definition world_after (ms : list move) (σ : state) : World :=
  match exec ms σ with
  | Some σ' => world σ'
  | None => world σ
  end.

(** Run thread [t] alone until it is back in application code, it waits for
    the lock, or [fuel] is used up. *)
Fixpoint solo (fuel : nat) (t : tid) (p : pc) (w : World) : pc * World :=
  match fuel with
  | O => (p, w)
  | S fuel' =>
      match step_pc t p w with
      | Some (p', w') => solo fuel' t p' w'
      | None => (p, w)
      end
  end.

End Machine.

(** * Facts about one thread *)

Module SeqFacts.
Import Seq.

(** ** Reading a world after an update *)

Lemma posts_observe x w :
  posts (observe x w)
  = posts w ++ match x with ActPost r resp => [(r, resp)] | _ => [] end.
Proof. unfold posts, observe; simpl. rewrite omap_app. by destruct x. Qed.

Lemma appended_observe x w :
  appended (observe x w)
  = appended w ++ match x with ActAppend e => [e] | _ => [] end.
Proof. unfold appended, observe; simpl. rewrite omap_app. by destruct x. Qed.

Lemma flush_calls_observe x w :
  flush_calls (observe x w)
  = (flush_calls w + match x with ActFlush => 1 | _ => 0 end)%nat.
Proof.
  unfold flush_calls, observe; simpl. rewrite omap_app, length_app. by destruct x.
Qed.

Lemma delivered_observe x w :
  delivered (observe x w)
  = delivered w ++ match x with ActPost r Accepted => req_events r | _ => [] end.
Proof.
  unfold delivered, delivered_batches, observe; simpl.
  rewrite omap_app, concat_app. destruct x as [| |r [|]|]; simpl; by rewrite ?app_nil_r.
Qed.

Lemma posts_with_self f w : posts (with_self f w) = posts w.
Proof. reflexivity. Qed.

Lemma appended_with_self f w : appended (with_self f w) = appended w.
Proof. reflexivity. Qed.

Lemma flush_calls_with_self f w : flush_calls (with_self f w) = flush_calls w.
Proof. reflexivity. Qed.

(** ** [flush] *)

Ltac unfold_m :=
  cbv [track flush drain deliver with_lock acquire release post print identify
       get modify emit mbind M_bind mret M_ret].

Lemma flush_empty t w :
  queue (self w) = [] → flush t w = Returned tt (observe ActFlush w).
Proof. intros Hq. unfold_m. simpl. by rewrite Hq. Qed.

Lemma flush_locked t t' w :
  queue (self w) ≠ [] → lock (self w) = Some t' →
  flush t w = Blocked (observe ActFlush w).
Proof.
  intros Hq Hl. unfold_m. simpl.
  destruct (queue (self w)); [done|]. simpl. by rewrite Hl.
Qed.

Lemma flush_accepted t w :
  queue (self w) ≠ [] → lock (self w) = None →
  network w (length (posts w)) = Accepted →
  flush t w
  = Returned tt (observe (ActPost (request_for (self w) (queue (self w))) Accepted)
                         (drained w)).
Proof.
  intros Hq Hl Hn. unfold_m. simpl.
  destruct w as [[url key bs iv q u s l ft] net tr]; simpl in *; subst.
  destruct q as [|e q]; [done|].
  unfold posts in *; simpl in *. rewrite omap_app; simpl. rewrite app_nil_r, Hn.
  reflexivity.
Qed.

Lemma flush_raised t w e :
  queue (self w) ≠ [] → lock (self w) = None →
  network w (length (posts w)) = Raised e →
  flush t w
  = Returned tt
      (with_self (set_queue (queue (self w)))
         (observe (ActPrint ("Failed to send events: " ++ e))
            (observe (ActPost (request_for (self w) (queue (self w))) (Raised e))
               (drained w)))).
Proof.
  intros Hq Hl Hn. unfold_m. simpl.
  destruct w as [[url key bs iv q u s l ft] net tr]; simpl in *; subst.
  destruct q as [|e0 q]; [done|].
  unfold posts in *; simpl in *. rewrite omap_app; simpl. rewrite app_nil_r, Hn.
  simpl. rewrite app_nil_r. reflexivity.
Qed.


(** ** [track] *)

Lemma track_locked t t' event_name properties now w :
  lock (self w) = Some t' → track t event_name properties now w = Blocked w.
Proof. intros Hl. unfold_m. simpl. by rewrite Hl. Qed.

Lemma track_below t event_name properties now w :
  lock (self w) = None →
  (Z.of_nat (length (queue (self w))) + 1 < batch_size (self w))%Z →
  track t event_name properties now w
  = Returned tt (buffered (make_event event_name properties now (self w)) w).
Proof.
  intros Hl Hlt. unfold_m. simpl. rewrite Hl. simpl.
  rewrite length_app; simpl.
  destruct (decide _) as [Hge|_]; [lia|].
  destruct w as [[url key bs iv q u s l ft] net tr]; simpl in *; by subst.
Qed.

Lemma track_at_batch_size t event_name properties now w :
  lock (self w) = None →
  (batch_size (self w) ≤ Z.of_nat (length (queue (self w))) + 1)%Z →
  track t event_name properties now w
  = Blocked (observe ActFlush
               (with_self (set_lock (Some t))
                  (buffered (make_event event_name properties now (self w)) w))).
Proof.
  intros Hl Hge. unfold_m. simpl. rewrite Hl. simpl.
  rewrite length_app; simpl.
  destruct (decide _) as [_|Hlt]; [|lia].
  destruct w as [[url key bs iv q u s l ft] net tr]; simpl in *; subst.
  by destruct q.
Qed.


(** ** What [track] does with an event *)

(** C4, where the code departs from it.  [track] builds the event from the
    current user id, the session id and the clock, and appends it.  Below
    [batch_size] (10 unless given) the call returns: the event is at the tail
    of the queue, the lock is free, [flush] has not been entered and nothing
    has been sent.  At [batch_size] or beyond [flush] is entered during the
    call, inside the [with] block of line 59, and waits there for the lock:
    the call does not return, the event stays at the tail of the queue, the
    lock stays taken, nothing is drained and nothing is sent. *)
Theorem track_appends_and_waits_at_batch_size t event_name props now w :
  lock (self w) = None →
  let event := make_event event_name props now (self w) in
  let r := track t event_name props now w in
  let n := (Z.of_nat (length (queue (self w))) + 1)%Z in
  event = mkEvent event_name (or_empty props) (user_id (self w))
                  (session_id (self w)) now
  ∧ queue (self (world_of r)) = queue (self w) ++ [event]
  ∧ appended (world_of r) = appended w ++ [event]
  ∧ posts (world_of r) = posts w
  ∧ ((n < batch_size (self w))%Z →
       r = Returned tt (buffered event w)
       ∧ flush_calls (world_of r) = flush_calls w
       ∧ lock (self (world_of r)) = None)
  ∧ ((batch_size (self w) ≤ n)%Z →
       r = Blocked (observe ActFlush (with_self (set_lock (Some t)) (buffered event w)))
       ∧ returns r = false
       ∧ flush_calls (world_of r) = S (flush_calls w)
       ∧ lock (self (world_of r)) = Some t)
  ∧ (∀ url key uuid, batch_size (init url key uuid) = 10%Z).
Proof.
  intros Hl event r n. split; [done|]. subst r.
  destruct (decide (batch_size (self w) ≤ n)%Z) as [Hge|Hlt].
  - rewrite (track_at_batch_size _ _ _ _ _ Hl Hge). cbn [world_of returns].
    unfold buffered.
    rewrite flush_calls_observe, appended_observe, posts_observe, flush_calls_with_self,
      appended_with_self, posts_with_self, appended_observe, flush_calls_observe,
      posts_observe, flush_calls_with_self, appended_with_self, posts_with_self.
    rewrite !app_nil_r.
    split; [done|]. split; [done|]. split; [done|]. split; [intros; lia|].
    split; [|done]. intros _. split; [done|]. split; [done|]. split; [simpl; lia|done].
  - assert (n < batch_size (self w))%Z as Hlt' by lia.
    rewrite (track_below _ _ _ _ _ Hl Hlt'). cbn [world_of returns]. unfold buffered.
    rewrite appended_observe, flush_calls_observe, posts_observe,
      flush_calls_with_self, appended_with_self, posts_with_self, app_nil_r.
    split; [done|]. split; [done|]. split; [done|]. split.
    + intros _. split; [done|]. split; [simpl; lia|]. simpl. done.
    + split; [intros; lia|done].
Qed.

Lemma track_appends_and_waits_at_batch_size_witness :
  let w := boot (example_client 2) always_accepts in
  let a := mkEvent "a" [] None "session-3f2b" 0 in
  let b := mkEvent "b" [] None "session-3f2b" 1 in
  let w1 := buffered a w in
  (lock (self w) = None ∧ lock (self w1) = None)
  ∧ track 1 "a" None 0 w = Returned tt w1
  ∧ flush_calls w1 = 0
  ∧ returns (track 1 "b" None 1 w1) = false
  ∧ queue (self (world_of (track 1 "b" None 1 w1))) = [a; b]
  ∧ flush_calls (world_of (track 1 "b" None 1 w1)) = 1
  ∧ posts (world_of (track 1 "b" None 1 w1)) = [].
Proof.
  intros w a b w1. split; [by split|].
  destruct (track_appends_and_waits_at_batch_size 1 "a" None 0 w eq_refl)
    as (_ & _ & _ & _ & Hbelow & _).
  destruct (Hbelow ltac:(vm_compute; reflexivity)) as (Hr & Hf & _).
  split; [exact Hr|]. split; [reflexivity|].
  destruct (track_appends_and_waits_at_batch_size 1 "b" None 1 w1 eq_refl)
    as (_ & Hq & _ & Hp & _ & Hat & _).
  destruct (Hat ltac:(vm_compute; discriminate)) as (_ & Hret & Hfc & _).
  split; [exact Hret|]. split; [exact Hq|]. split; [exact Hfc|exact Hp].
Defined.

(** C5, as the code has it.  [track] checks neither the name nor the
    properties: whatever the name, the empty one included, the event that
    carries it is appended to the queue. *)
Theorem track_accepts_every_name t event_name props now w :
  lock (self w) = None →
  let event := make_event event_name props now (self w) in
  let after := world_of (track t event_name props now w) in
  eventName event = event_name
  ∧ properties event = or_empty props
  ∧ queue (self after) = queue (self w) ++ [event].
Proof.
  intros Hl event after. split; [done|]. split; [done|]. subst after.
  destruct (decide (batch_size (self w) ≤ Z.of_nat (length (queue (self w))) + 1)%Z)
    as [Hge|Hlt].
  - by rewrite (track_at_batch_size _ _ _ _ _ Hl Hge).
  - rewrite (track_below _ _ _ _ _ Hl); [done | lia].
Qed.

Lemma track_accepts_every_name_witness :
  let w := boot (example_client 10) always_accepts in
  lock (self w) = None
  ∧ queue (self (world_of (track 1 "" None 0 w)))
    = [mkEvent "" [] None "session-3f2b" 0].
Proof.
  split; [reflexivity|].
  apply (track_accepts_every_name 1 "" None 0 (boot (example_client 10) always_accepts)).
  reflexivity.
Defined.

(** C5, as the claim has it, fails: a call with the empty name returns
    normally and leaves an event with the empty name in the queue. *)
Lemma track_empty_name_is_buffered :
  let r := track 1 "" None 0 (boot (example_client 10) always_accepts) in
  returns r = true
  ∧ ∃ e, e ∈ queue (self (world_of r)) ∧ eventName e = "".
Proof.
  split; [reflexivity|].
  exists (mkEvent "" [] None "session-3f2b" 0). split; [|reflexivity].
  vm_compute. apply list_elem_of_here.
Qed.

(** ** Construction *)

(** C6, as the code has it.  The constructor checks nothing: the url and the
    key it is given, [None] and the empty string included, are stored as they
    are and a client with an empty queue, no user and a free lock comes
    back. *)
Theorem new_Analytics_stores_any_url_and_key url key bsize interval uuid :
  let a := new_Analytics url key bsize interval uuid in
  api_url a = url ∧ api_key a = key
  ∧ batch_size a = bsize ∧ flush_interval a = interval
  ∧ queue a = [] ∧ user_id a = None ∧ lock a = None
  ∧ init url key uuid = new_Analytics url key 10 5 uuid.
Proof. by repeat split. Qed.

(** C6, as the claim has it, fails: without url and key a client is made,
    and it takes events. *)
Lemma init_without_url_and_key_makes_a_client :
  init None None "3f2b" = mkAnalytics None None 10 5 [] None "session-3f2b" None (Some timer_tid)
  ∧ api_url (init (Some "") (Some "") "3f2b") = Some ""
  ∧ track 1 "a" None 0 (boot (init None None "3f2b") always_accepts)
    = Returned tt (buffered (mkEvent "a" [] None "session-3f2b" 0)
                            (boot (init None None "3f2b") always_accepts)).
Proof. by repeat split. Qed.

(** ** [flush] on an empty queue *)

(** C7.  With an empty queue [flush] returns at once: the client object is
    what it was and the collaborator has received nothing more. *)
Theorem flush_empty_is_noop t w :
  queue (self w) = [] →
  ∃ w', flush t w = Returned tt w'
        ∧ self w' = self w
        ∧ posts w' = posts w
        ∧ network w' = network w.
Proof.
  intros Hq. exists (observe ActFlush w). rewrite (flush_empty _ _ Hq).
  rewrite posts_observe, app_nil_r. done.
Qed.

Lemma flush_empty_is_noop_witness :
  let w := boot (example_client 10) fails_once in
  queue (self w) = []
  ∧ ∃ w', flush 1 w = Returned tt w' ∧ self w' = self w ∧ posts w' = posts w
          ∧ network w' = network w.
Proof.
  split; [reflexivity|].
  apply (flush_empty_is_noop 1 (boot (example_client 10) fails_once)). reflexivity.
Defined.


(** ** Sequencing *)

Lemma bind_returned {A B} (m : M A) (k : A → M B) w a w' :
  m w = Returned a w' → (m ≫= k) w = k a w'.
Proof. intros H. unfold mbind, M_bind. by rewrite H. Qed.

Lemma bind_blocked {A B} (m : M A) (k : A → M B) w w' :
  m w = Blocked w' → (m ≫= k) w = Blocked w'.
Proof. intros H. unfold mbind, M_bind. by rewrite H. Qed.

(** ** A failed delivery *)

(** C3.  When the request fails, [flush] puts the whole batch back in front
    of the queue, in its order and before whatever the queue holds by then.
    So a [flush] whose request fails leaves the client as it was, and when the
    next request succeeds it carries the same events in the same order. *)
Theorem failed_flush_requeues_at_head t w e :
  lock (self w) = None →
  queue (self w) ≠ [] →
  network w (length (posts w)) = Raised e →
  let batch := queue (self w) in
  (∀ w1 e1, lock (self w1) = None →
            network w1 (length (posts w1)) = Raised e1 →
            returns (deliver t batch w1) = true
            ∧ queue (self (world_of (deliver t batch w1))) = batch ++ queue (self w1))
  ∧ returns (flush t w) = true
  ∧ self (world_of (flush t w)) = self w
  ∧ (network w (S (length (posts w))) = Accepted →
     let after := world_of ((flush t;; flush t) w) in
     returns ((flush t;; flush t) w) = true
     ∧ posts after = posts w ++ [(request_for (self w) batch, Raised e);
                                 (request_for (self w) batch, Accepted)]
     ∧ queue (self after) = []).
Proof.
  intros Hl Hq Hn batch. split; [|split; [|split]].
  - intros w1 e1 Hl1 Hn1. unfold_m. simpl. rewrite Hn1. simpl. rewrite Hl1. done.
  - by rewrite (flush_raised _ _ _ Hq Hl Hn).
  - rewrite (flush_raised _ _ _ Hq Hl Hn). cbn [world_of].
    destruct w as [[url key bs iv q u s l ft] net tr]; simpl in *; by subst.
  - intros Hn2 after. subst after.
    rewrite !(bind_returned _ _ _ _ _ (flush_raised _ _ _ Hq Hl Hn)).
    set (w2 := with_self _ _).
    assert (self w2 = self w) as Hs.
    { subst w2. destruct w as [[url key bs iv q u s l ft] net tr]; simpl in *; by subst. }
    assert (posts w2 = posts w ++ [(request_for (self w) batch, Raised e)]) as Hp.
    { subst w2. unfold drained.
      rewrite posts_with_self, !posts_observe, posts_with_self, posts_observe.
      by rewrite !app_nil_r. }
    assert (network w2 = network w) as Hnet by done.
    rewrite flush_accepted.
    + cbn [returns world_of]. rewrite posts_observe. unfold drained.
      rewrite posts_with_self, posts_observe, Hp, Hs, app_nil_r, <- app_assoc. done.
    + by rewrite Hs.
    + by rewrite Hs.
    + rewrite Hnet, Hp, length_app, Nat.add_comm. exact Hn2.
Qed.

Lemma failed_flush_requeues_at_head_witness :
  let a := mkEvent "a" [] None "session-3f2b" 0 in
  let b := mkEvent "b" [] None "session-3f2b" 1 in
  let c := mkEvent "c" [] None "session-3f2b" 2 in
  let w := world_of (run_calls 1 [CTrack "a" None 0; CTrack "b" None 1; CTrack "c" None 2]
                              (boot (example_client 10) fails_once)) in
  (lock (self w) = None ∧ queue (self w) = [a; b; c]
   ∧ network w (length (posts w)) = Raised "ConnectionError"
   ∧ network w (S (length (posts w))) = Accepted)
  ∧ self (world_of (flush 1 w)) = self w
  ∧ (req_events ∘ fst) <$> posts (world_of ((flush 1;; flush 1) w))
    = [[a; b; c]; [a; b; c]].
Proof.
  intros a b c w.
  split; [by repeat split|].
  destruct (failed_flush_requeues_at_head 1 w "ConnectionError" eq_refl
              ltac:(discriminate) eq_refl) as (_ & _ & Hself & Hretry).
  split; [exact Hself|].
  destruct (Hretry eq_refl) as (_ & Hp & _). rewrite Hp. reflexivity.
Defined.

(** ** The size of a batch *)

Lemma flush_posts_queue t w :
  lock (self w) = None → queue (self w) ≠ [] →
  posts (world_of (flush t w))
  = posts w ++ [(request_for (self w) (queue (self w)), network w (length (posts w)))].
Proof.
  intros Hl Hq. destruct (network w (length (posts w))) as [|e] eqn:Hn.
  - rewrite (flush_accepted _ _ Hq Hl Hn). cbn [world_of]. unfold drained.
    by rewrite posts_observe, posts_with_self, posts_observe, app_nil_r.
  - rewrite (flush_raised _ _ _ Hq Hl Hn). cbn [world_of]. unfold drained.
    rewrite posts_with_self, !posts_observe, posts_with_self, posts_observe.
    by rewrite !app_nil_r.
Qed.

(** ** The batch-size trigger blocks *)

(** C1, where the code departs from it.  With [batch_size = 1] the first
    [track] takes the lock, appends, and enters [flush] inside the [with]
    block; [flush] waits for the lock its own thread holds.  Nothing is
    drained, nothing is sent, the lock stays taken. *)
Theorem track_flush_waits_for_own_lock :
  let w := boot (example_client 1) always_accepts in
  let r := track 1 "product_viewed" None 0 w in
  returns r = false
  ∧ lock (self (world_of r)) = Some 1
  ∧ queue (self (world_of r)) = [mkEvent "product_viewed" [] None "session-3f2b" 0]
  ∧ flush_calls (world_of r) = 1
  ∧ posts (world_of r) = [].
Proof. by repeat split. Qed.

(** C8, where the code departs from it.  With [batch_size = 2] and a
    collaborator that accepts everything, the second [track] does not return;
    both events stay in the queue and nothing has been sent. *)
Theorem second_track_of_two_blocks :
  let w := boot (example_client 2) always_accepts in
  let r := run_calls 1 [CTrack "a" None 0; CTrack "b" None 1] w in
  returns r = false
  ∧ length (queue (self (world_of r))) = 2
  ∧ (Z.of_nat 2 mod batch_size (self w))%Z = 0%Z
  ∧ posts (world_of r) = [].
Proof. by repeat split. Qed.


(** ** The user id *)

Lemma track_buffers t event_name props now w :
  lock (self w) = None →
  let event := make_event event_name props now (self w) in
  let after := world_of (track t event_name props now w) in
  queue (self after) = queue (self w) ++ [event]
  ∧ appended after = appended w ++ [event].
Proof.
  intros Hl event after. subst after.
  destruct (decide (batch_size (self w) ≤ Z.of_nat (length (queue (self w))) + 1)%Z)
    as [Hge|Hlt].
  - rewrite (track_at_batch_size _ _ _ _ _ Hl Hge). cbn [world_of]. unfold buffered.
    rewrite appended_observe, appended_with_self, appended_observe,
      appended_with_self, app_nil_r.
    done.
  - rewrite (track_below _ _ _ _ _ Hl); [|lia]. cbn [world_of]. unfold buffered.
    by rewrite appended_observe, appended_with_self.
Qed.

Lemma flush_frame t w :
  let after := world_of (flush t w) in
  user_id (self after) = user_id (self w)
  ∧ appended after = appended w
  ∧ (queue (self after) = [] ∨ queue (self after) = queue (self w)).
Proof.
  destruct (queue (self w)) as [|e0 q] eqn:Hq.
  { rewrite (flush_empty _ _ Hq). cbn [world_of].
    rewrite appended_observe, app_nil_r. simpl. rewrite Hq. auto. }
  assert (queue (self w) ≠ []) as Hne by (by rewrite Hq).
  destruct (lock (self w)) as [t'|] eqn:Hl.
  { rewrite (flush_locked _ _ _ Hne Hl). cbn [world_of].
    rewrite appended_observe, app_nil_r. simpl. rewrite Hq. auto. }
  destruct (network w (length (posts w))) as [|e] eqn:Hn.
  - rewrite (flush_accepted _ _ Hne Hl Hn). cbn [world_of]. unfold drained.
    rewrite appended_observe, appended_with_self, appended_observe, !app_nil_r.
    simpl. auto.
  - rewrite (flush_raised _ _ _ Hne Hl Hn). cbn [world_of]. unfold drained.
    rewrite appended_with_self, !appended_observe, appended_with_self,
      appended_observe, !app_nil_r.
    simpl. rewrite Hq. auto.
Qed.

Lemma run_call_anonymous t c w :
  is_identify c = false → anonymous w → anonymous (world_of (run_call t c w)).
Proof.
  intros Hc (Hu & Ha & Hb). destruct c as [uid traits|event_name props now|]; [done| |].
  - simpl. destruct (lock (self w)) as [t'|] eqn:Hl.
    { rewrite (track_locked _ _ _ _ _ _ Hl). by repeat split. }
    assert (userId (make_event event_name props now (self w)) = None) as He by done.
    destruct (decide (batch_size (self w) ≤ Z.of_nat (length (queue (self w))) + 1)%Z)
      as [Hge|Hlt].
    + rewrite (track_at_batch_size _ _ _ _ _ Hl Hge). cbn [world_of].
      unfold anonymous, buffered.
      rewrite appended_observe, appended_with_self, appended_observe,
        appended_with_self, app_nil_r.
      simpl. split; [done|]. split; apply Forall_app; by repeat constructor.
    + rewrite (track_below _ _ _ _ _ Hl); [|lia]. cbn [world_of].
      unfold anonymous, buffered. rewrite appended_observe, appended_with_self.
      simpl. split; [done|]. split; apply Forall_app; by repeat constructor.
  - simpl. destruct (flush_frame t w) as (Hu' & Ha' & Hq').
    unfold anonymous. rewrite Hu', Ha'. split; [done|]. split; [done|].
    destruct Hq' as [-> | ->]; [constructor | done].
Qed.

Lemma run_calls_anonymous t cs w :
  forallb (λ c, negb (is_identify c)) cs = true →
  anonymous w → anonymous (world_of (run_calls t cs w)).
Proof.
  revert w. induction cs as [|c cs IH]; intros w Hcs Hw; [done|].
  simpl in Hcs. apply andb_prop in Hcs as [Hc Hcs]. apply negb_true_iff in Hc.
  pose proof (run_call_anonymous t c w Hc Hw) as H1.
  simpl. unfold mbind, M_bind.
  destruct (run_call t c w) as [[] w'|w']; [|exact H1].
  by apply IH.
Qed.

(** C9.  [identify] assigns [user_id] and nothing else: the queue, and so
    every event in it, is what it was.  An event tracked afterwards carries
    the new id.  As long as [identify] has not been called on a client,
    every event it has appended carries no id. *)
Theorem identify_changes_only_later_events t uid traits w :
  let w1 := world_of (identify t uid traits w) in
  identify t uid traits w = Returned tt w1
  ∧ w1 = with_self (set_user_id (Some uid)) w
  ∧ queue (self w1) = queue (self w)
  ∧ appended w1 = appended w
  ∧ (∀ event_name props now,
       lock (self w) = None →
       let event := mkEvent event_name (or_empty props) (Some uid)
                            (session_id (self w)) now in
       let after := world_of (track t event_name props now w1) in
       queue (self after) = queue (self w) ++ [event]
       ∧ appended after = appended w ++ [event])
  ∧ (∀ url key bsize interval uuid net cs,
       forallb (λ c, negb (is_identify c)) cs = true →
       let after := world_of (run_calls t cs
                                (boot (new_Analytics url key bsize interval uuid) net)) in
       Forall (λ e, userId e = None) (appended after)
       ∧ Forall (λ e, userId e = None) (queue (self after))).
Proof.
  intros w1. do 4 (split; [done|]). split.
  - intros event_name props now Hl event after.
    by destruct (track_buffers t event_name props now w1 Hl) as [H1 H2].
  - intros url key bsize interval uuid net cs Hcs after.
    apply (run_calls_anonymous t cs); [done|]. by repeat split.
Qed.

Lemma identify_changes_only_later_events_witness :
  let old := mkEvent "a" [] None "session-3f2b" 0 in
  let w := world_of (track 1 "a" None 0 (boot (example_client 10) always_accepts)) in
  let w1 := world_of (identify 1 "u42" None w) in
  lock (self w) = None
  ∧ queue (self w1) = [old]
  ∧ queue (self (world_of (track 1 "b" None 1 w1)))
    = [old; mkEvent "b" [] (Some "u42") "session-3f2b" 1]
  ∧ Forall (λ e, userId e = None)
           (appended (world_of (run_calls 1 [CTrack "a" None 0; CFlush; CTrack "b" None 1]
                                  (boot (example_client 10) always_accepts)))).
Proof.
  intros old w w1.
  destruct (identify_changes_only_later_events 1 "u42" None w)
    as (_ & _ & Hq & _ & Htrack & Hanon).
  split; [reflexivity|]. split; [exact Hq|]. split.
  - apply (Htrack "b" None 1%Q eq_refl).
  - apply (Hanon (Some "http://localhost:3001/api/v1") (Some "dev_key_123") 10%Z 5%Z
                 "3f2b" always_accepts
                 [CTrack "a" None 0; CFlush; CTrack "b" None 1] eq_refl).
Defined.

(** ** Counting [track] calls *)

Lemma run_calls_app t cs cs' w :
  run_calls t (cs ++ cs') w = (run_calls t cs;; run_calls t cs') w.
Proof.
  revert w. induction cs as [|c cs IH]; intros w; [done|].
  simpl. unfold mbind, M_bind in *.
  destruct (run_call t c w) as [[] w1|w1]; [apply IH | done].
Qed.

(** Below [batch_size] every [track] returns and the queue grows by one. *)
Lemma tracks_below_batch_size t cs w :
  forallb is_track cs = true →
  lock (self w) = None →
  (Z.of_nat (length (queue (self w)) + length cs) < batch_size (self w))%Z →
  ∃ w', run_calls t cs w = Returned tt w'
        ∧ length (queue (self w')) = length (queue (self w)) + length cs
        ∧ lock (self w') = None
        ∧ batch_size (self w') = batch_size (self w)
        ∧ posts w' = posts w.
Proof.
  revert w. induction cs as [|c cs IH]; intros w Hcs Hl Hlt.
  { exists w. simpl. repeat split; try done; lia. }
  simpl in Hcs. apply andb_prop in Hcs as [Hc Hcs].
  destruct c as [|event_name props now|]; try done.
  simpl in Hlt.
  destruct (IH (buffered (make_event event_name props now (self w)) w))
    as (w' & Hrun & Hlen & Hl' & Hb & Hp); [done|done| |].
  { simpl. rewrite length_app. simpl. lia. }
  exists w'. split.
  - simpl. erewrite bind_returned; [exact Hrun|]. simpl. apply track_below; [done|lia].
  - rewrite Hlen, Hl', Hb, Hp. simpl. rewrite length_app. simpl.
    unfold buffered. rewrite posts_observe, posts_with_self, app_nil_r.
    repeat split; try done; lia.
Qed.

(** The call that brings the queue to [batch_size] does not return. *)
Lemma track_reaching_batch_size_blocks t cs event_name props now w :
  forallb is_track cs = true →
  lock (self w) = None →
  Z.of_nat (length (queue (self w)) + length cs + 1) = batch_size (self w) →
  let r := run_calls t (cs ++ [CTrack event_name props now]) w in
  returns r = false
  ∧ length (queue (self (world_of r))) = length (queue (self w)) + length cs + 1
  ∧ posts (world_of r) = posts w.
Proof.
  intros Hcs Hl Hn r. subst r.
  destruct (tracks_below_batch_size t cs w Hcs Hl) as (w' & Hrun & Hlen & Hl' & Hb & Hp);
    [lia|].
  rewrite run_calls_app. erewrite bind_returned; [|exact Hrun].
  simpl. erewrite bind_blocked; [|apply track_at_batch_size; [done|lia]].
  simpl. rewrite length_app. simpl. unfold buffered.
  rewrite posts_observe, posts_with_self, posts_observe, posts_with_self, !app_nil_r.
  repeat split; try done; lia.
Qed.

End SeqFacts.

(** * Facts about several threads *)

Module MachineFacts.
Import Seq Machine SeqFacts.

(** ** One step, seen from the thread that takes it *)

Lemma delivered_with_self f w : delivered (with_self f w) = delivered w.
Proof. reflexivity. Qed.

Lemma in_flight_resume k : in_flight (resume k) = [].
Proof. by destruct k. Qed.

Lemma well_nested_resume k : well_nested (resume k) = true.
Proof. by destruct k. Qed.

Lemma holds_resume k : k ≠ RetTrack → holds (resume k) = false.
Proof. by destruct k. Qed.

Lemma acquire_at_effect t p next w p' w' :
  acquire_at t next w = Some (p', w') →
  holds p = false → holds next = true → well_nested next = true →
  in_flight next = in_flight p →
  (∀ events k, next ≠ FlushClear events k) →
  step_effect t p w p' w'.
Proof.
  unfold acquire_at. intros Hs Hp Hn Hw Hf Hc.
  destruct (lock (self w)) eqn:Hl; [done|]. simplify_eq.
  split; simpl; try done.
  - intros events k ?. by destruct (Hc events k).
  - intros t' Hne. rewrite Hl. split; [|done]. intros [=]. done.
  - by left.
  - intros rest. by rewrite Hf.
Qed.

Lemma step_pc_effect t p w p' w' :
  step_pc t p w = Some (p', w') →
  well_nested p = true →
  (holds p = true ↔ lock (self w) = Some t) →
  (∀ events k, p = FlushClear events k → queue (self w) = events) →
  step_effect t p w p' w'.
Proof.
  intros Hs Hw Hh Hc.
  destruct p as [| |event|event| | |k|k|k|events k|events k|events k|events e k
                 |events k|events k|k|]; simpl in Hs.
  - done.
  - (* TimerSleep *)
    destruct (sleep_raises _); simplify_eq; split; simpl; try done; try by left.
    intros rest. by rewrite appended_observe, delivered_observe, !app_nil_r.
  - (* TrackAcquire *)
    eapply acquire_at_effect; try done.
  - (* TrackAppend *)
    simplify_eq. split; simpl; try done.
    + by right.
    + intros rest H. rewrite appended_observe, delivered_observe, app_nil_r.
      rewrite appended_with_self, delivered_with_self, H. simpl.
      by rewrite !app_assoc.
  - (* TrackTest *)
    destruct (decide _); simplify_eq; split; simpl; try done; try by left.
    intros rest. by rewrite appended_observe, delivered_observe, !app_nil_r.
  - (* TrackRelease *)
    simplify_eq. split; simpl; try done.
    + intros t' Hne. split; [done|]. intros H. destruct Hh as [Hh _].
      rewrite Hh in H by done. congruence.
    + by left.
  - (* FlushTest *)
    destruct (queue (self w)) eqn:Hq; simplify_eq; split; simpl; try done;
      try by left.
    + apply well_nested_resume.
    + rewrite <- Hh. by destruct k.
    + by destruct k.
    + intros rest. by rewrite in_flight_resume.
  - (* FlushAcquire *)
    destruct k.
    + eapply acquire_at_effect; try done.
    + unfold acquire_at in Hs. destruct Hh as [Hh _]. by rewrite Hh in Hs.
    + eapply acquire_at_effect; try done.
  - (* FlushCopy *)
    simplify_eq. split; simpl; try done.
    + by intros events k' [= <- _].
    + by left.
  - (* FlushClear *)
    simplify_eq. split; simpl; try done.
    + by right.
    + intros rest H. rewrite (Hc events k eq_refl) in H. simpl in H.
      rewrite appended_with_self, delivered_with_self, H, app_nil_r.
      f_equiv. apply Permutation_app_comm.
  - (* FlushRelease *)
    simplify_eq. split; simpl; try done.
    + intros t' Hne. split; [done|]. intros H. destruct Hh as [Hh _].
      rewrite Hh in H by done. congruence.
    + by left.
  - (* FlushPost *)
    unfold post in Hs.
    destruct (network w (length (posts w))) as [|e]; simplify_eq; split; simpl;
      try done; try by left.
    + apply well_nested_resume.
    + rewrite holds_resume; [done|]. by destruct k.
    + by destruct k.
    + intros rest H. rewrite appended_observe, delivered_observe, app_nil_r, H.
      rewrite in_flight_resume. simpl. by rewrite !app_assoc.
    + intros rest. by rewrite appended_observe, delivered_observe, !app_nil_r.
  - (* FlushPrint *)
    simplify_eq. split; simpl; try done; try by left.
    intros rest. by rewrite appended_observe, delivered_observe, !app_nil_r.
  - (* RequeueAcquire *)
    eapply acquire_at_effect; try done.
  - (* RequeueSet *)
    simplify_eq. split; simpl; try done; try by right.
    intros rest H. rewrite appended_with_self, delivered_with_self, H. simpl.
    f_equiv. rewrite !app_assoc. f_equiv. apply Permutation_app_comm.
  - (* RequeueRelease *)
    simplify_eq. split; simpl; try done; try by left.
    + apply well_nested_resume.
    + rewrite holds_resume; [done|]. by destruct k.
    + by destruct k.
    + intros t' Hne. split; [done|]. intros H. destruct Hh as [Hh _].
      rewrite Hh in H by done. congruence.
    + intros rest. by rewrite in_flight_resume.
  - (* Dead *)
    done.
Qed.


Lemma start_call_effect t c w p' w' :
  start_call c w = (p', w') →
  lock (self w) ≠ Some t →
  step_effect t Idle w p' w'.
Proof.
  intros Hs Hl.
  destruct c as [uid traits|event_name props now|]; simpl in Hs; simplify_eq;
    split; simpl; try done; try by left.
  intros rest. by rewrite appended_observe, delivered_observe, !app_nil_r.
Qed.

(** ** One step, seen from the whole state *)

Lemma in_flight_split (ps : list pc) t p p' :
  ps !! t = Some p →
  ∃ rest, concat (in_flight <$> ps) ≡ₚ in_flight p ++ rest
          ∧ concat (in_flight <$> <[t := p']> ps) ≡ₚ in_flight p' ++ rest.
Proof.
  intros Hp.
  exists (concat (in_flight <$> take t ps) ++ concat (in_flight <$> drop (S t) ps)).
  split.
  - rewrite <- (take_drop_middle ps t p Hp) at 1.
    rewrite fmap_app, concat_app. simpl.
    rewrite !app_assoc. f_equiv. apply Permutation_app_comm.
  - rewrite insert_take_drop by (by eapply lookup_lt_Some).
    rewrite fmap_app, concat_app. simpl.
    rewrite !app_assoc. f_equiv. apply Permutation_app_comm.
Qed.

Lemma effect_preserves σ t p p' w' :
  threads σ !! t = Some p →
  step_effect t p (world σ) p' w' →
  lock_discipline σ → conserved σ →
  lock_discipline (mkState w' (<[t := p']> (threads σ)))
  ∧ conserved (mkState w' (<[t := p']> (threads σ))).
Proof.
  intros Hp [Hn Hh Hc Ho Hq Hcons] Hdisc Hcv.
  destruct (Hdisc t p Hp) as (_ & Hht & _).
  split.
  - intros t0 p0. simpl. intros H0.
    destruct (decide (t0 = t)) as [->|Hne].
    + rewrite list_lookup_insert_eq in H0 by (by eapply lookup_lt_Some).
      by simplify_eq.
    + rewrite list_lookup_insert_ne in H0 by done.
      destruct (Hdisc t0 p0 H0) as (Hn0 & Hh0 & Hc0).
      split; [done|]. split; [by rewrite Ho|].
      intros events k ->. destruct Hq as [-> | Hheld]; [by eapply Hc0|].
      apply Hht in Hheld. destruct Hh0 as [Hh0 _].
      rewrite Hh0 in Hheld by done. congruence.
  - unfold conserved, all_in_flight in *. simpl.
    destruct (in_flight_split (threads σ) t p p' Hp) as (rest & H1 & H2).
    rewrite H2. apply Hcons. by rewrite <- H1.
Qed.

Lemma step_preserves m σ σ' :
  step m σ = Some σ' →
  lock_discipline σ → conserved σ →
  lock_discipline σ' ∧ conserved σ'.
Proof.
  intros Hs Hdisc Hcv. destruct m as [t|t c]; simpl in Hs.
  - destruct (threads σ !! t) as [p|] eqn:Hp; [|done]. simpl in Hs.
    destruct (step_pc t p (world σ)) as [[p' w']|] eqn:Hstep; [|done].
    simpl in Hs. simplify_eq.
    destruct (Hdisc t p Hp) as (Hn & Hh & Hc).
    eapply effect_preserves; try done. by eapply step_pc_effect.
  - destruct (threads σ !! t) as [p|] eqn:Hp; [|done]. simpl in Hs.
    destruct p; try done.
    destruct (start_call c (world σ)) as [p' w'] eqn:Hstart. simplify_eq.
    destruct (Hdisc t Idle Hp) as (Hn & Hh & Hc).
    eapply effect_preserves; try done. eapply start_call_effect; [done|].
    intros Hl. apply Hh in Hl. done.
Qed.

Lemma exec_preserves ms σ σ' :
  exec ms σ = Some σ' →
  lock_discipline σ → conserved σ →
  lock_discipline σ' ∧ conserved σ'.
Proof.
  revert σ. induction ms as [|m ms IH]; intros σ Hs Hdisc Hcv.
  { simpl in Hs. by simplify_eq. }
  simpl in Hs. destruct (step m σ) as [σ1|] eqn:Hstep; [|done]. simpl in Hs.
  destruct (step_preserves m σ σ1 Hstep Hdisc Hcv) as [H1 H2].
  by eapply IH.
Qed.

(** ** The state after construction *)

Lemma start_discipline url key bsize interval uuid net n :
  lock_discipline (start (new_Analytics url key bsize interval uuid) net n).
Proof.
  intros t p. simpl. intros Hp.
  assert (p = TimerSleep ∨ p = Idle) as [-> | ->]; [|done..].
  destruct t as [|t]; simpl in Hp; [left; congruence|right].
  apply lookup_replicate in Hp. by destruct Hp.
Qed.

Lemma start_conserved a net n :
  queue a = [] → conserved (start a net n).
Proof.
  intros Hq. unfold conserved, all_in_flight. simpl. rewrite Hq, app_nil_r.
  induction n as [|n IH]; [done|]. done.
Qed.

Lemma reachable_invariants url key bsize interval uuid net n ms σ :
  exec ms (start (new_Analytics url key bsize interval uuid) net n) = Some σ →
  lock_discipline σ ∧ conserved σ.
Proof.
  intros Hs. eapply exec_preserves; [done| |].
  - apply start_discipline.
  - by apply start_conserved.
Qed.


(** ** Conservation of events *)

Lemma settled_nothing_in_flight σ : settled σ → all_in_flight σ = [].
Proof.
  unfold settled, all_in_flight. induction (threads σ) as [|p ps IH]; [done|].
  intros H. apply Forall_cons in H as [Hp Hps]. simpl. rewrite Hp. by apply IH.
Qed.

(** C2.  Along every run of the client, whatever the interleaving of the
    threads and the answers of the collaborator, the events appended so far
    are, as a multiset, those delivered, those in flight (drained and not yet
    delivered or put back) and those in the queue.  When no batch is in
    flight, delivered plus queued is all that was ever appended. *)
Theorem no_event_lost_or_duplicated url key bsize interval uuid net n ms σ :
  exec ms (start (new_Analytics url key bsize interval uuid) net n) = Some σ →
  appended (world σ)
    ≡ₚ delivered (world σ) ++ all_in_flight σ ++ queue (self (world σ))
  ∧ (settled σ →
     appended (world σ) ≡ₚ delivered (world σ) ++ queue (self (world σ))).
Proof.
  intros Hs. destruct (reachable_invariants _ _ _ _ _ _ _ _ _ Hs) as [_ Hcv].
  split; [exact Hcv|].
  intros Hset. unfold conserved in Hcv. by rewrite (settled_nothing_in_flight _ Hset) in Hcv.
Qed.


Lemma no_event_lost_or_duplicated_witness :
  ∃ σ, exec retry_after_appends (start (example_client 3) fails_once 1) = Some σ
       ∧ settled σ
       ∧ appended (world σ) ≡ₚ delivered (world σ) ++ queue (self (world σ)).
Proof.
  eexists. split; [vm_compute; reflexivity|]. split; [repeat constructor|].
  refine (proj2 (no_event_lost_or_duplicated
                   (Some "http://localhost:3001/api/v1") (Some "dev_key_123") 3 5 "3f2b"
                   fails_once 1 retry_after_appends _ _) _).
  - vm_compute; reflexivity.
  - repeat constructor.
Defined.

(** ** The size of a batch, with several threads *)

(** C10, where the code departs from it.  A [flush] that finds the lock
    free hands the collaborator the whole queue in one request, whatever
    [batch_size] is: when the request is accepted the queue is empty and what
    was in it is delivered, when it fails the queue is what it was.  A
    delivered batch can be longer than [batch_size]: with [batch_size = 3],
    two events are drained, two more are appended while the request fails, the
    batch is put back in front of them and the next [flush] delivers all
    four.  But the [flush] entered by the size trigger, and any [flush] that
    finds the lock taken for good, drains nothing and sends nothing. *)
Theorem flush_sends_whole_queue_unless_size_triggered t w :
  lock (self w) = None →
  queue (self w) ≠ [] →
  let batch := queue (self w) in
  let resp := network w (length (posts w)) in
  let after := world_of (flush t w) in
  (returns (flush t w) = true
   ∧ posts after = posts w ++ [(request_for (self w) batch, resp)]
   ∧ lock (self after) = None
   ∧ (resp = Accepted →
        queue (self after) = [] ∧ delivered after = delivered w ++ batch)
   ∧ (∀ e, resp = Raised e →
        queue (self after) = batch ∧ delivered after = delivered w))
  ∧ (∀ event_name props now,
       (batch_size (self w) ≤ Z.of_nat (length batch) + 1)%Z →
       let r := track t event_name props now w in
       returns r = false
       ∧ flush_calls (world_of r) = S (flush_calls w)
       ∧ queue (self (world_of r))
         = batch ++ [make_event event_name props now (self w)]
       ∧ posts (world_of r) = posts w
       ∧ delivered (world_of r) = delivered w)
  ∧ (∀ t',
       let held := with_self (set_lock (Some t')) w in
       flush t held = Blocked (observe ActFlush held)
       ∧ queue (self (world_of (flush t held))) = batch
       ∧ posts (world_of (flush t held)) = posts w)
  ∧ ∃ ms σ big,
      exec ms (start (example_client 3) fails_once 1) = Some σ
      ∧ big ∈ delivered_batches (world σ)
      ∧ (batch_size (self (world σ)) < Z.of_nat (length big))%Z.
Proof.
  intros Hl Hq batch resp after. split; [|split; [|split]].
  - subst after resp. destruct (network w (length (posts w))) as [|e] eqn:Hn.
    + rewrite (flush_accepted _ _ Hq Hl Hn). cbn [world_of returns]. unfold drained.
      rewrite posts_observe, delivered_observe, posts_with_self, delivered_with_self,
        posts_observe, delivered_observe, !app_nil_r.
      simpl. by repeat split.
    + rewrite (flush_raised _ _ _ Hq Hl Hn). cbn [world_of returns]. unfold drained.
      rewrite posts_with_self, delivered_with_self, !posts_observe, !delivered_observe,
        posts_with_self, delivered_with_self, posts_observe, delivered_observe,
        !app_nil_r.
      simpl. by repeat split.
  - intros event_name props now Hge r. subst r.
    rewrite (track_at_batch_size _ _ _ _ _ Hl Hge). cbn [world_of returns].
    unfold buffered.
    rewrite flush_calls_observe, posts_observe, delivered_observe,
      flush_calls_with_self, posts_with_self, delivered_with_self,
      flush_calls_observe, posts_observe, delivered_observe,
      flush_calls_with_self, posts_with_self, delivered_with_self, !app_nil_r.
    simpl. repeat split; try done. lia.
  - intros t' held. subst held.
    rewrite (flush_locked t t'); [|done|done]. cbn [world_of].
    by rewrite posts_observe, posts_with_self, app_nil_r.
  - exists retry_after_appends. eexists. eexists.
    split; [vm_compute; reflexivity|]. split.
    + vm_compute. apply list_elem_of_here.
    + vm_compute. reflexivity.
Qed.

Lemma flush_sends_whole_queue_unless_size_triggered_witness :
  let a := mkEvent "a" [] None "session-3f2b" 0 in
  let b := mkEvent "b" [] None "session-3f2b" 1 in
  let c := mkEvent "c" [] None "session-3f2b" 2 in
  let d := mkEvent "d" [] None "session-3f2b" 3 in
  let w := world_after requeue_after_appends (start (example_client 3) fails_once 1) in
  (lock (self w) = None ∧ queue (self w) = [a; b; c; d])
  ∧ (batch_size (self w) < Z.of_nat (length (queue (self w))))%Z
  ∧ (req_events ∘ fst) <$> posts (world_of (flush 1 w)) = [[a; b]; [a; b; c; d]]
  ∧ queue (self (world_of (flush 1 w))) = []
  ∧ delivered (world_of (flush 1 w)) = [a; b; c; d]
  ∧ returns (track 1 "e" None 4 w) = false
  ∧ length (queue (self (world_of (track 1 "e" None 4 w)))) = 5
  ∧ length (posts (world_of (track 1 "e" None 4 w))) = 1.
Proof.
  intros a b c d w.
  assert (lock (self w) = None) as Hl by (vm_compute; reflexivity).
  assert (queue (self w) = [a; b; c; d]) as Hq by (vm_compute; reflexivity).
  assert (queue (self w) ≠ []) as Hne by (rewrite Hq; discriminate).
  assert (network w (length (posts w)) = Accepted) as Hn by (vm_compute; reflexivity).
  assert (posts w = [(request_for (self w) [a; b], Raised "ConnectionError")]) as Hp0
    by (vm_compute; reflexivity).
  assert (delivered w = []) as Hd0 by (vm_compute; reflexivity).
  split; [by split|]. split; [vm_compute; reflexivity|].
  destruct (flush_sends_whole_queue_unless_size_triggered 1 w Hl Hne)
    as ((_ & Hp & _ & Hacc & _) & Htrack & _).
  destruct (Hacc Hn) as [Hqa Hda].
  destruct (Htrack "e" None 4%Q ltac:(vm_compute; discriminate))
    as (Hret & _ & Hqt & Hpt & _).
  split; [rewrite Hp, Hn, Hp0, Hq; reflexivity|].
  split; [exact Hqa|]. split; [by rewrite Hda, Hd0, Hq|].
  split; [exact Hret|]. split; [by rewrite Hqt, Hq|by rewrite Hpt, Hp0].
Defined.

(** ** The lock and the request *)

(** A thread about to send the request is outside every [with] block. *)
Lemma post_outside_lock url key bsize interval uuid net n ms σ t events k :
  exec ms (start (new_Analytics url key bsize interval uuid) net n) = Some σ →
  threads σ !! t = Some (FlushPost events k) →
  lock (self (world σ)) ≠ Some t.
Proof.
  intros Hs Hp. destruct (reachable_invariants _ _ _ _ _ _ _ _ _ Hs) as [Hd _].
  destruct (Hd t _ Hp) as (_ & Hh & _). intros Hl. apply Hh in Hl. done.
Qed.

(** Two threads are never inside a [with] block together. *)
Lemma mutual_exclusion url key bsize interval uuid net n ms σ t1 t2 p1 p2 :
  exec ms (start (new_Analytics url key bsize interval uuid) net n) = Some σ →
  threads σ !! t1 = Some p1 → threads σ !! t2 = Some p2 →
  holds p1 = true → holds p2 = true → t1 = t2.
Proof.
  intros Hs H1 H2 Hh1 Hh2.
  destruct (reachable_invariants _ _ _ _ _ _ _ _ _ Hs) as [Hd _].
  destruct (Hd t1 _ H1) as (_ & [Ha _] & _). destruct (Hd t2 _ H2) as (_ & [Hb _] & _).
  specialize (Ha Hh1). specialize (Hb Hh2). congruence.
Qed.

(** A [flush] entered from [track] stays at line 70 for ever, and so does
    the lock with the thread that called [track]. *)
Lemma flush_inside_track_stays ms σ σ' t :
  lock_discipline σ → conserved σ →
  threads σ !! t = Some (FlushAcquire RetTrack) →
  exec ms σ = Some σ' →
  threads σ' !! t = Some (FlushAcquire RetTrack) ∧ lock (self (world σ')) = Some t.
Proof.
  revert σ. induction ms as [|m ms IH]; intros σ Hd Hc Hp Hs.
  - simpl in Hs. simplify_eq. split; [done|].
    destruct (Hd t _ Hp) as (_ & [Hh _] & _). by apply Hh.
  - simpl in Hs. destruct (step m σ) as [σ1|] eqn:Hstep; [|done]. simpl in Hs.
    destruct (step_preserves m σ σ1 Hstep Hd Hc) as [Hd1 Hc1].
    apply (IH σ1); try done.
    destruct (Hd t _ Hp) as (_ & [Hh _] & _). specialize (Hh eq_refl).
    destruct m as [t0|t0 c]; simpl in Hstep.
    + destruct (threads σ !! t0) as [p0|] eqn:Hp0; [|done]. simpl in Hstep.
      destruct (step_pc t0 p0 (world σ)) as [[p' w']|] eqn:Hpc; [|done].
      simpl in Hstep. simplify_eq. simpl.
      destruct (decide (t0 = t)) as [->|Hne].
      * simplify_eq. simpl in Hpc. unfold acquire_at in Hpc. by rewrite Hh in Hpc.
      * by rewrite list_lookup_insert_ne.
    + destruct (threads σ !! t0) as [p0|] eqn:Hp0; [|done]. simpl in Hstep.
      destruct p0; try done.
      destruct (start_call c (world σ)) as [p' w'] eqn:Hstart. simplify_eq. simpl.
      destruct (decide (t0 = t)) as [->|Hne]; [congruence|].
      by rewrite list_lookup_insert_ne.
Qed.


(** ** One thread running alone does what the monadic methods say *)

Lemma solo_exec fuel t p σ :
  threads σ !! t = Some p →
  ∃ ms, Forall (λ m, m = Run t) ms
        ∧ exec ms σ
          = Some (mkState (solo fuel t p (world σ)).2
                          (<[t := (solo fuel t p (world σ)).1]> (threads σ))).
Proof.
  revert p σ. induction fuel as [|fuel IH]; intros p σ Hp.
  { exists []. split; [constructor|]. simpl. rewrite list_insert_id by done.
    by destruct σ. }
  simpl. destruct (step_pc t p (world σ)) as [[p' w']|] eqn:Hstep.
  - destruct (IH p' (mkState w' (<[t := p']> (threads σ)))) as (ms & Hms & Hex).
    { simpl. apply list_lookup_insert_eq. by eapply lookup_lt_Some. }
    exists (Run t :: ms). split; [by constructor|].
    simpl. rewrite Hp. simpl. rewrite Hstep. simpl.
    rewrite Hex. simpl. by rewrite list_insert_insert_eq.
  - exists []. split; [constructor|]. simpl. rewrite list_insert_id by done.
    by destruct σ.
Qed.

Lemma solo_step n t p w p' w' :
  step_pc t p w = Some (p', w') → solo (S n) t p w = solo n t p' w'.
Proof. intros H. simpl. by rewrite H. Qed.

Lemma solo_stop n t p w : step_pc t p w = None → solo n t p w = (p, w).
Proof. intros H. destruct n; [done|]. simpl. by rewrite H. Qed.

Lemma flush_test_nonempty t k w :
  queue (self w) ≠ [] → step_pc t (FlushTest k) w = Some (FlushAcquire k, w).
Proof. intros Hq. simpl. by destruct (queue (self w)). Qed.

Ltac solo_next tac := erewrite solo_step; [|simpl; tac; reflexivity].

Lemma solo_flush t w fuel :
  solo (10 + fuel) t (FlushTest RetCaller) (observe ActFlush w)
  = match flush t w with
    | Returned _ w' => (Idle, w')
    | Blocked w' => (FlushAcquire RetCaller, w')
    end.
Proof.
  cbn [Nat.add].
  destruct (queue (self w)) as [|e0 q] eqn:Hq.
  { rewrite (flush_empty _ _ Hq). solo_next ltac:(rewrite Hq). by apply solo_stop. }
  assert (queue (self w) ≠ []) as Hne by (by rewrite Hq).
  solo_next ltac:(rewrite Hq).
  destruct (lock (self w)) as [t'|] eqn:Hl.
  { rewrite (flush_locked _ _ _ Hne Hl). apply solo_stop. simpl.
    unfold acquire_at. simpl. by rewrite Hl. }
  solo_next ltac:(unfold acquire_at; simpl; rewrite Hl).
  do 3 solo_next idtac.
  remember (with_self (set_lock None) _) as w3 eqn:Hw3.
  assert (posts w3 = posts w) as Hp3.
  { subst w3. by rewrite !posts_with_self, posts_observe, app_nil_r. }
  assert (network w3 = network w) as Hn3 by (by subst w3).
  destruct (network w (length (posts w))) as [|e] eqn:Hn.
  - rewrite (flush_accepted _ _ Hne Hl Hn).
    solo_next ltac:(unfold post; rewrite Hn3, Hp3, Hn).
    rewrite solo_stop by done. subst w3. rewrite Hq.
    destruct w as [[url key bs iv q0 u s l ft] net tr]; simpl in *; by subst.
  - rewrite (flush_raised _ _ _ Hne Hl Hn).
    solo_next ltac:(unfold post; rewrite Hn3, Hp3, Hn).
    solo_next idtac.
    assert (lock (self w3) = None) as Hl3 by (by subst w3).
    solo_next ltac:(unfold acquire_at; simpl; rewrite Hl3).
    do 2 solo_next idtac.
    rewrite solo_stop by done. subst w3. rewrite Hq.
    destruct w as [[url key bs iv q0 u s l ft] net tr]; simpl in *; subst.
    by rewrite app_nil_r.
Qed.

Lemma solo_track t event_name props now w fuel :
  let event := make_event event_name props now (self w) in
  solo (4 + fuel) t (TrackAcquire event) w
  = match track t event_name props now w with
    | Returned _ w' => (Idle, w')
    | Blocked w' =>
        (match lock (self w) with
         | Some _ => TrackAcquire event
         | None => FlushAcquire RetTrack
         end, w')
    end.
Proof.
  intros event. cbn [Nat.add].
  destruct (lock (self w)) as [t'|] eqn:Hl.
  { rewrite (track_locked _ _ _ _ _ _ Hl). apply solo_stop. simpl.
    unfold acquire_at. by rewrite Hl. }
  solo_next ltac:(unfold acquire_at; rewrite Hl).
  solo_next idtac.
  destruct (decide (batch_size (self w) ≤ Z.of_nat (length (queue (self w))) + 1)%Z)
    as [Hge|Hlt].
  - rewrite (track_at_batch_size _ _ _ _ _ Hl Hge).
    solo_next ltac:(rewrite length_app; simpl; rewrite decide_True by lia).
    erewrite solo_step; [|apply flush_test_nonempty; simpl; by destruct (queue (self w))].
    rewrite solo_stop by done.
    by destruct w as [[url key bs iv q0 u s l ft] net tr].
  - rewrite (track_below _ _ _ _ _ Hl); [|lia].
    solo_next ltac:(rewrite length_app; simpl; rewrite decide_False by lia).
    solo_next idtac.
    rewrite solo_stop by done.
    destruct w as [[url key bs iv q0 u s l ft] net tr]; simpl in *; by subst.
Qed.

(** ** The batch-size trigger, with several threads *)


Lemma exec_run t p p' w' ms σ :
  threads σ !! t = Some p →
  step_pc t p (world σ) = Some (p', w') →
  exec (Run t :: ms) σ = exec ms (mkState w' (<[t := p']> (threads σ))).
Proof. intros Hp Hs. simpl. rewrite Hp. simpl. by rewrite Hs. Qed.

Lemma exec_invoke t c ms σ :
  threads σ !! t = Some Idle →
  exec (Invoke t c :: ms) σ
  = exec ms (mkState (start_call c (world σ)).2
                     (<[t := (start_call c (world σ)).1]> (threads σ))).
Proof.
  intros Hp. simpl. rewrite Hp. simpl. by destruct (start_call c (world σ)).
Qed.

Lemma lookup_own_insert (ps : list pc) t p p' :
  ps !! t = Some p → <[t := p']> ps !! t = Some p'.
Proof. intros Hp. apply list_lookup_insert_eq. by eapply lookup_lt_Some. Qed.

(** Once the length after an append has reached [batch_size], the thread
    that called [track] is at line 70 of [flush] with the lock taken at line
    59, and no run, of any thread, moves it or frees the lock. *)
Lemma track_at_batch_size_deadlocks url key bsize interval uuid net n ms σ t
      event_name props now :
  exec ms (start (new_Analytics url key bsize interval uuid) net n) = Some σ →
  threads σ !! t = Some Idle →
  lock (self (world σ)) = None →
  (batch_size (self (world σ)) ≤ Z.of_nat (length (queue (self (world σ)))) + 1)%Z →
  ∃ σ1, exec (Invoke t (CTrack event_name props now) :: replicate 4 (Run t)) σ = Some σ1
        ∧ posts (world σ1) = posts (world σ)
        ∧ ∀ ms' σ', exec ms' σ1 = Some σ' →
            threads σ' !! t = Some (FlushAcquire RetTrack)
            ∧ lock (self (world σ')) = Some t.
Proof.
  intros Hreach Hp Hl Hge.
  destruct (reachable_invariants _ _ _ _ _ _ _ _ _ Hreach) as [Hd Hc].
  set (event := make_event event_name props now (self (world σ))).
  set (w1 := with_self (set_lock (Some t)) (world σ)).
  set (w2 := buffered event w1).
  set (σ1 := mkState (observe ActFlush w2) (<[t := FlushAcquire RetTrack]> (threads σ))).
  assert (exec (Invoke t (CTrack event_name props now) :: replicate 4 (Run t)) σ = Some σ1)
    as Hex.
  { change (replicate 4 (Run t)) with [Run t; Run t; Run t; Run t].
    rewrite (exec_invoke _ _ _ _ Hp). cbn [start_call fst snd]. fold event.
    erewrite exec_run; [|by eapply lookup_own_insert|simpl; unfold acquire_at; by rewrite Hl].
    cbn [threads world]. rewrite list_insert_insert_eq. fold w1.
    erewrite exec_run; [|by eapply lookup_own_insert|done].
    cbn [threads world]. rewrite list_insert_insert_eq.
    erewrite exec_run; [|by eapply lookup_own_insert|].
    2:{ simpl. rewrite length_app. simpl. rewrite decide_True by lia. done. }
    cbn [threads world]. rewrite list_insert_insert_eq.
    erewrite exec_run; [|by eapply lookup_own_insert|].
    2:{ apply flush_test_nonempty. simpl. by destruct (queue (self (world σ))). }
    cbn [threads world]. rewrite list_insert_insert_eq. done. }
  exists σ1. split; [done|]. split.
  { subst σ1 w2 w1. simpl. unfold buffered.
    by rewrite posts_observe, posts_observe, !posts_with_self, !app_nil_r. }
  destruct (exec_preserves _ _ _ Hex Hd Hc) as [Hd1 Hc1].
  intros ms' σ' Hex'. eapply flush_inside_track_stays; try done.
  subst σ1. simpl. by eapply lookup_own_insert.
Qed.

End MachineFacts.

(** * More about one thread *)

Module SeqExtra.
Import Seq SeqFacts MachineFacts.

(** ** Which calls return *)

Lemma flush_returns_free t w :
  lock (self w) = None →
  returns (flush t w) = true ∧ lock (self (world_of (flush t w))) = None.
Proof.
  intros Hl. destruct (queue (self w)) as [|e0 q] eqn:Hq.
  { by rewrite (flush_empty _ _ Hq). }
  assert (queue (self w) ≠ []) as Hne by (by rewrite Hq).
  destruct (network w (length (posts w))) as [|e] eqn:Hn.
  - by rewrite (flush_accepted _ _ Hne Hl Hn).
  - by rewrite (flush_raised _ _ _ Hne Hl Hn).
Qed.

(** X1.  From a free lock, a call does not return exactly when it is a
    [track] that brings the queue to [batch_size] or beyond; [identify],
    [flush] and every other [track] return and leave the lock free, and the
    [track] that does not return leaves the lock taken by its own thread. *)
Theorem call_blocks_exactly_at_batch_size t c w :
  lock (self w) = None →
  let r := run_call t c w in
  (returns r = false
   ↔ is_track c = true
     ∧ (batch_size (self w) ≤ Z.of_nat (length (queue (self w))) + 1)%Z)
  ∧ (returns r = true → lock (self (world_of r)) = None)
  ∧ (returns r = false → lock (self (world_of r)) = Some t).
Proof.
  intros Hl r. subst r. destruct c as [uid traits|event_name props now|]; simpl.
  - split; [|done]. split; [done|]. by intros [? _].
  - destruct (decide (batch_size (self w) ≤ Z.of_nat (length (queue (self w))) + 1)%Z)
      as [Hge|Hlt].
    + rewrite (track_at_batch_size _ _ _ _ _ Hl Hge). simpl. by repeat split.
    + rewrite (track_below _ _ _ _ _ Hl); [|lia]. simpl.
      split; [|done]. split; [done|]. intros [_ ?]. lia.
  - destruct (flush_returns_free t w Hl) as [Hr Hf]. rewrite Hr.
    split; [|done]. split; [done|]. by intros [? _].
Qed.

Lemma call_blocks_exactly_at_batch_size_witness :
  let w := world_of (track 1 "a" None 0 (boot (example_client 2) always_accepts)) in
  lock (self w) = None
  ∧ returns (run_call 1 CFlush w) = true
  ∧ returns (run_call 1 (CIdentify "u42" None) w) = true
  ∧ returns (run_call 1 (CTrack "b" None 1) w) = false
  ∧ lock (self (world_of (run_call 1 (CTrack "b" None 1) w))) = Some 1.
Proof.
  intros w. split; [reflexivity|]. split; [reflexivity|]. split; [reflexivity|].
  destruct (call_blocks_exactly_at_batch_size 1 (CTrack "b" None 1) w eq_refl)
    as (Hiff & _ & Hheld).
  assert (returns (run_call 1 (CTrack "b" None 1) w) = false) as Hb.
  { apply Hiff. split; [reflexivity|]. vm_compute. discriminate. }
  split; [exact Hb | exact (Hheld Hb)].
Defined.


(** ** The traits *)

(** X11.  The traits given to [identify] are dropped: a run of calls does
    exactly what the same run without any traits does, in the client and in
    every request; and [identify_user] of the example application, which
    passes the e-mail address and the account type as traits, leaves no trace
    of them. *)
Theorem traits_are_dropped t cs w :
  run_calls t cs w = run_calls t (forget_traits <$> cs) w
  ∧ (∀ uid email account_type iso_now,
       identify_user t uid email account_type iso_now w
       = Returned tt (with_self (set_user_id (Some uid)) w)).
Proof.
  split; [|done].
  revert w. induction cs as [|c cs IH]; intros w; [done|].
  simpl. unfold mbind, M_bind.
  assert (run_call t (forget_traits c) w = run_call t c w) as -> by (by destruct c).
  destruct (run_call t c w) as [[] w'|w']; [apply IH | done].
Qed.

End SeqExtra.

(** * More about several threads *)

Module MachineExtra.
Import Seq Machine SeqFacts MachineFacts.

(** ** The lock *)

(** X5.  In every state a run can reach, a thread inside a [with self.lock]
    block is the one the lock is taken by, and no other thread is inside such
    a block. *)
Theorem only_one_thread_in_with_block url key bsize interval uuid net n ms σ t1 t2 p1 p2 :
  exec ms (start (new_Analytics url key bsize interval uuid) net n) = Some σ →
  threads σ !! t1 = Some p1 →
  threads σ !! t2 = Some p2 →
  t1 ≠ t2 →
  holds p1 = true →
  lock (self (world σ)) = Some t1 ∧ holds p2 = false.
Proof.
  intros Hs H1 H2 Hne Hh1.
  destruct (reachable_invariants _ _ _ _ _ _ _ _ _ Hs) as [Hd _].
  destruct (Hd t1 _ H1) as (_ & [Ha _] & _). destruct (Hd t2 _ H2) as (_ & [Hb _] & _).
  specialize (Ha Hh1). split; [done|].
  destruct (holds p2) eqn:Hh2; [|done]. specialize (Hb eq_refl). congruence.
Qed.

Lemma only_one_thread_in_with_block_witness :
  let e := mkEvent "a" [] None "session-3f2b" 0 in
  ∃ σ, exec [Invoke 1 (CTrack "a" None 0); Run timer_tid; Run 1]
            (start (example_client 10) always_accepts 1) = Some σ
       ∧ threads σ = [FlushTest RetTimer; TrackAppend e]
       ∧ lock (self (world σ)) = Some 1.
Proof.
  intros e. eexists. split; [vm_compute; reflexivity|]. split; [reflexivity|].
  refine (proj1 (only_one_thread_in_with_block
                   (Some "http://localhost:3001/api/v1") (Some "dev_key_123") 10 5 "3f2b"
                   always_accepts 1
                   [Invoke 1 (CTrack "a" None 0); Run timer_tid; Run 1] _
                   1 timer_tid (TrackAppend e) (FlushTest RetTimer) _ _ _ _ _)).
  - vm_compute; reflexivity.
  - reflexivity.
  - reflexivity.
  - discriminate.
  - reflexivity.
Defined.

(** X6.  In every state a run can reach, a thread about to send the request
    is outside every [with self.lock] block, and the [flush] it is in was not
    called by [track]: the size trigger of line 62 never gets as far as a
    request. *)
Theorem request_sent_outside_with_block url key bsize interval uuid net n ms σ t events k :
  exec ms (start (new_Analytics url key bsize interval uuid) net n) = Some σ →
  threads σ !! t = Some (FlushPost events k) →
  lock (self (world σ)) ≠ Some t ∧ k ≠ RetTrack.
Proof.
  intros Hs Hp. destruct (reachable_invariants _ _ _ _ _ _ _ _ _ Hs) as [Hd _].
  destruct (Hd t _ Hp) as (Hn & Hh & _). split.
  - intros Hl. apply Hh in Hl. done.
  - intros ->. done.
Qed.

Lemma request_sent_outside_with_block_witness :
  let e := mkEvent "a" [] None "session-3f2b" 0 in
  ∃ σ, exec (track_alone 1 "a" 0 ++ timer_drains)
            (start (example_client 10) always_accepts 1) = Some σ
       ∧ threads σ !! timer_tid = Some (FlushPost [e] RetTimer)
       ∧ lock (self (world σ)) ≠ Some timer_tid.
Proof.
  intros e. eexists. split; [vm_compute; reflexivity|]. split; [reflexivity|].
  refine (proj1 (request_sent_outside_with_block
                   (Some "http://localhost:3001/api/v1") (Some "dev_key_123") 10 5 "3f2b"
                   always_accepts 1 (track_alone 1 "a" 0 ++ timer_drains) _
                   timer_tid [e] RetTimer _ _)).
  - vm_compute; reflexivity.
  - reflexivity.
Defined.


(** ** After the size trigger *)

Lemma step_keeps_queue_under_deadlock m σ σ1 t :
  lock_discipline σ →
  threads σ !! t = Some (FlushAcquire RetTrack) →
  step m σ = Some σ1 →
  queue (self (world σ1)) = queue (self (world σ)).
Proof.
  intros Hd Hp Hstep.
  destruct (Hd t _ Hp) as (_ & [Hh _] & _). specialize (Hh eq_refl).
  destruct m as [t0|t0 c]; simpl in Hstep.
  - destruct (threads σ !! t0) as [p0|] eqn:Hp0; [|done]. simpl in Hstep.
    destruct (step_pc t0 p0 (world σ)) as [[p' w']|] eqn:Hpc; [|done].
    simpl in Hstep. simplify_eq. simpl.
    destruct (Hd t0 _ Hp0) as (Hn0 & Hh0 & Hc0).
    destruct (step_pc_effect _ _ _ _ _ Hpc Hn0 Hh0 Hc0) as [_ _ _ _ [Hq|Hheld] _]; [done|].
    apply Hh0 in Hheld. assert (t0 = t) as -> by congruence.
    pose proof (eq_trans (eq_sym Hp0) Hp) as [= ->].
    simpl in Hpc. unfold acquire_at in Hpc. by rewrite Hh in Hpc.
  - destruct (threads σ !! t0) as [p0|] eqn:Hp0; [|done]. simpl in Hstep.
    destruct p0; try done.
    by destruct c; simpl in Hstep; simplify_eq.
Qed.

Lemma deadlock_keeps_queue ms σ σ' t :
  lock_discipline σ → conserved σ →
  threads σ !! t = Some (FlushAcquire RetTrack) →
  exec ms σ = Some σ' →
  queue (self (world σ')) = queue (self (world σ)).
Proof.
  revert σ. induction ms as [|m ms IH]; intros σ Hd Hc Hp Hs.
  { simpl in Hs. by simplify_eq. }
  simpl in Hs. destruct (step m σ) as [σ1|] eqn:Hstep; [|done]. simpl in Hs.
  destruct (step_preserves m σ σ1 Hstep Hd Hc) as [Hd1 Hc1].
  destruct (flush_inside_track_stays [m] σ σ1 t Hd Hc Hp) as [Hp1 _].
  { simpl. by rewrite Hstep. }
  rewrite (IH σ1 Hd1 Hc1 Hp1 Hs).
  by eapply step_keeps_queue_under_deadlock.
Qed.

(** X7.  Whatever the other threads are doing: when a thread calls [track]
    with the lock free and the append brings the queue to [batch_size] or
    beyond, and runs on its own up to line 70, then in every continuation, of
    any thread, that thread is still at line 70, the lock is still taken, and
    the queue still holds exactly what it held: those events are never sent
    and no event is ever appended again. *)
Theorem size_trigger_stops_the_client url key bsize interval uuid net n ms σ t
      event_name props now :
  exec ms (start (new_Analytics url key bsize interval uuid) net n) = Some σ →
  threads σ !! t = Some Idle →
  lock (self (world σ)) = None →
  (batch_size (self (world σ)) ≤ Z.of_nat (length (queue (self (world σ)))) + 1)%Z →
  ∃ σ1,
    exec (Invoke t (CTrack event_name props now) :: replicate 4 (Run t)) σ = Some σ1
    ∧ queue (self (world σ1))
      = queue (self (world σ)) ++ [make_event event_name props now (self (world σ))]
    ∧ posts (world σ1) = posts (world σ)
    ∧ ∀ ms' σ', exec ms' σ1 = Some σ' →
        threads σ' !! t = Some (FlushAcquire RetTrack)
        ∧ lock (self (world σ')) = Some t
        ∧ queue (self (world σ')) = queue (self (world σ1)).
Proof.
  intros Hreach Hp Hl Hge.
  destruct (reachable_invariants _ _ _ _ _ _ _ _ _ Hreach) as [Hd Hc].
  set (event := make_event event_name props now (self (world σ))).
  set (w1 := with_self (set_lock (Some t)) (world σ)).
  set (σ1 := mkState (observe ActFlush (buffered event w1))
                     (<[t := FlushAcquire RetTrack]> (threads σ))).
  assert (exec (Invoke t (CTrack event_name props now) :: replicate 4 (Run t)) σ = Some σ1)
    as Hex.
  { change (replicate 4 (Run t)) with [Run t; Run t; Run t; Run t].
    rewrite (exec_invoke _ _ _ _ Hp). cbn [start_call fst snd]. fold event.
    erewrite exec_run; [|by eapply lookup_own_insert|simpl; unfold acquire_at; by rewrite Hl].
    cbn [threads world]. rewrite list_insert_insert_eq. fold w1.
    erewrite exec_run; [|by eapply lookup_own_insert|done].
    cbn [threads world]. rewrite list_insert_insert_eq.
    erewrite exec_run; [|by eapply lookup_own_insert|].
    2:{ simpl. rewrite length_app. simpl. rewrite decide_True by lia. done. }
    cbn [threads world]. rewrite list_insert_insert_eq.
    erewrite exec_run; [|by eapply lookup_own_insert|].
    2:{ apply flush_test_nonempty. simpl. by destruct (queue (self (world σ))). }
    cbn [threads world]. rewrite list_insert_insert_eq. done. }
  exists σ1. split; [done|]. split; [done|]. split.
  { subst σ1 w1. simpl. unfold buffered.
    by rewrite posts_observe, posts_observe, !posts_with_self, !app_nil_r. }
  destruct (exec_preserves _ _ _ Hex Hd Hc) as [Hd1 Hc1].
  assert (threads σ1 !! t = Some (FlushAcquire RetTrack)) as Hp1.
  { subst σ1. simpl. by eapply lookup_own_insert. }
  intros ms' σ' Hex'.
  destruct (flush_inside_track_stays ms' σ1 σ' t Hd1 Hc1 Hp1 Hex') as [H1 H2].
  split; [done|]. split; [done|]. by eapply deadlock_keeps_queue.
Qed.

Lemma size_trigger_stops_the_client_witness :
  let e := mkEvent "a" [] None "session-3f2b" 0 in
  let σ := start (example_client 1) always_accepts 1 in
  (threads σ !! 1 = Some Idle ∧ lock (self (world σ)) = None)
  ∧ ∃ σ1, exec (Invoke 1 (CTrack "a" None 0) :: replicate 4 (Run 1)) σ = Some σ1
          ∧ queue (self (world σ1)) = [e]
          ∧ posts (world σ1) = []
          ∧ ∀ ms' σ', exec ms' σ1 = Some σ' →
              threads σ' !! 1 = Some (FlushAcquire RetTrack)
              ∧ lock (self (world σ')) = Some 1
              ∧ queue (self (world σ')) = queue (self (world σ1)).
Proof.
  intros e σ. split; [by split|].
  apply (size_trigger_stops_the_client
           (Some "http://localhost:3001/api/v1") (Some "dev_key_123") 1 5 "3f2b"
           always_accepts 1 [] σ 1 "a" None 0%Q).
  - reflexivity.
  - reflexivity.
  - reflexivity.
  - vm_compute. discriminate.
Defined.


(** ** What never changes *)

Ltac stamp :=
  repeat split; simpl;
  rewrite ?appended_observe, ?posts_observe, ?appended_with_self, ?posts_with_self,
    ?app_nil_r;
  try done;
  try (apply Forall_app; split; try done; by repeat constructor).

Lemma stamped_step_pc a0 t p w p' w' ps :
  step_pc t p w = Some (p', w') →
  stamped a0 (mkState w ps) →
  Forall (λ e, sessionId e = session_id a0) (carried p) →
  stamped a0 (mkState w' ps)
  ∧ Forall (λ e, sessionId e = session_id a0) (carried p').
Proof.
  intros Hs ((Hu & Hk & Hb & Hi & Hsid & Hft) & Hq & Ha & Hp & Hts) Hc. simpl in *.
  unfold stamped. simpl.
  assert (∀ events, Forall (λ e, sessionId e = session_id a0) events →
            request_from a0 (session_id a0)
              (request_for (self w) events, network w (length (posts w)))) as Hr.
  { intros events Hev. unfold request_from, request_for. simpl.
    rewrite Hu, Hk. by repeat split. }
  destruct p as [| |event|event| | |k|k|k|events k|events k|events k|events e k
                 |events k|events k|k|]; simpl in Hs.
  - done.
  - destruct (sleep_raises _); simplify_eq; stamp.
  - unfold acquire_at in Hs. destruct (lock (self w)); [done|]. simplify_eq. stamp.
  - simplify_eq. stamp.
  - destruct (decide _); simplify_eq; stamp.
  - simplify_eq. stamp.
  - destruct (queue (self w)) eqn:Hqq; rewrite <- Hqq in Hq; simplify_eq; stamp;
      by destruct k.
  - unfold acquire_at in Hs. destruct (lock (self w)); [done|]. simplify_eq. stamp.
  - simplify_eq. stamp.
  - simplify_eq. stamp.
  - simplify_eq. stamp.
  - unfold post in Hs. specialize (Hr events Hc).
    destruct (network w (length (posts w))) as [|e]; simplify_eq; stamp;
      try (apply Forall_app; split; [done|by constructor]);
      by destruct k.
  - simplify_eq. stamp.
  - unfold acquire_at in Hs. destruct (lock (self w)); [done|]. simplify_eq. stamp.
  - simplify_eq. stamp.
  - simplify_eq. stamp. by destruct k.
  - done.
Qed.

Lemma stamped_step a0 m σ σ' :
  step m σ = Some σ' → stamped a0 σ → stamped a0 σ'.
Proof.
  intros Hs Hst. destruct m as [t|t c]; simpl in Hs.
  - destruct (threads σ !! t) as [p|] eqn:Hp; [|done]. simpl in Hs.
    destruct (step_pc t p (world σ)) as [[p' w']|] eqn:Hstep; [|done].
    simpl in Hs. simplify_eq.
    assert (Forall (λ e, sessionId e = session_id a0) (carried p)) as Hc.
    { destruct Hst as (_ & _ & _ & _ & Hts).
      by apply (Forall_lookup_1 _ _ _ _ Hts Hp). }
    destruct σ as [w ps]. simpl in *.
    destruct (stamped_step_pc a0 t p w p' w' ps Hstep Hst Hc)
      as [(H1 & H2 & H3 & H4 & H5) Hc'].
    unfold stamped. simpl in *. do 4 (split; [done|]). by apply Forall_insert.
  - destruct (threads σ !! t) as [p|] eqn:Hp; [|done]. simpl in Hs.
    destruct p; try done.
    destruct Hst as (Hcfg & Hq & Ha & Hpo & Hts).
    destruct c as [uid traits|event_name props now|]; simpl in Hs; simplify_eq;
      unfold stamped; simpl.
    + do 4 (split; [done|]). by apply Forall_insert.
    + do 4 (split; [done|]). apply Forall_insert; [done|].
      constructor; [|done]. simpl. by destruct Hcfg as (_ & _ & _ & _ & ? & _).
    + rewrite appended_observe, posts_observe, !app_nil_r.
      do 4 (split; [done|]). by apply Forall_insert.
Qed.

Lemma stamped_exec a0 ms σ σ' :
  exec ms σ = Some σ' → stamped a0 σ → stamped a0 σ'.
Proof.
  revert σ. induction ms as [|m ms IH]; intros σ Hs Hst.
  { simpl in Hs. by simplify_eq. }
  simpl in Hs. destruct (step m σ) as [σ1|] eqn:Hstep; [|done]. simpl in Hs.
  eapply IH; [done|]. by eapply stamped_step.
Qed.

Lemma stamped_start a0 net n : queue a0 = [] → stamped a0 (start a0 net n).
Proof.
  intros Hq. unfold stamped. simpl. rewrite Hq.
  do 4 (split; [done|]). constructor; [done|].
  apply Forall_forall. intros p Hp. apply elem_of_replicate in Hp as [-> _]. done.
Qed.

(** X8.  In every state a run can reach, the url, the key, the batch size,
    the interval and the session id are those the constructor was given or
    made; every event appended so far carries that session id; and every
    request sent so far went to that url followed by [/api/v1/events], with
    that key, a timeout of 10, and events of that session only. *)
Theorem configuration_and_session_never_change url key bsize interval uuid net n ms σ :
  exec ms (start (new_Analytics url key bsize interval uuid) net n) = Some σ →
  let sid := String.append "session-" uuid in
  (api_url (self (world σ)) = url
   ∧ api_key (self (world σ)) = key
   ∧ batch_size (self (world σ)) = bsize
   ∧ flush_interval (self (world σ)) = interval
   ∧ session_id (self (world σ)) = sid)
  ∧ Forall (λ e, sessionId e = sid) (appended (world σ))
  ∧ Forall (λ x, req_url x.1 = String.append (fstr url) "/api/v1/events"
                 ∧ req_api_key x.1 = key
                 ∧ req_timeout x.1 = 10%Z
                 ∧ Forall (λ e, sessionId e = sid) (req_events x.1))
           (posts (world σ)).
Proof.
  intros Hs sid.
  pose proof (stamped_exec (new_Analytics url key bsize interval uuid) _ _ _ Hs
                (stamped_start (new_Analytics url key bsize interval uuid) net n eq_refl))
    as (Hcfg & _ & Ha & Hp & _).
  destruct Hcfg as (H1 & H2 & H3 & H4 & H5 & _). by repeat split.
Qed.

Lemma configuration_and_session_never_change_witness :
  ∃ σ, exec retry_after_appends (start (example_client 3) fails_once 1) = Some σ
       ∧ session_id (self (world σ)) = "session-3f2b"
       ∧ (λ x, req_url x.1) <$> posts (world σ)
         = ["http://localhost:3001/api/v1/api/v1/events";
            "http://localhost:3001/api/v1/api/v1/events"]
       ∧ Forall (λ e, sessionId e = "session-3f2b") (appended (world σ)).
Proof.
  eexists. split; [vm_compute; reflexivity|].
  split; [reflexivity|]. split; [reflexivity|].
  refine (proj1 (proj2 (configuration_and_session_never_change
                   (Some "http://localhost:3001/api/v1") (Some "dev_key_123") 3 5 "3f2b"
                   fails_once 1 retry_after_appends _ _))).
  vm_compute; reflexivity.
Defined.


(** ** Two flushes at once *)

Lemma flush_alone_sends_no_empty_batch t w :
  posts (world_of (flush t w)) = posts w
  ∨ ∃ r resp, posts (world_of (flush t w)) = posts w ++ [(r, resp)]
              ∧ req_events r ≠ [].
Proof.
  destruct (queue (self w)) as [|e0 q] eqn:Hq.
  { left. rewrite (flush_empty _ _ Hq). cbn [world_of].
    by rewrite posts_observe, app_nil_r. }
  assert (queue (self w) ≠ []) as Hne by (by rewrite Hq).
  destruct (lock (self w)) as [t'|] eqn:Hl.
  { left. rewrite (flush_locked _ _ _ Hne Hl). cbn [world_of].
    by rewrite posts_observe, app_nil_r. }
  right. eexists _, _. split; [by apply flush_posts_queue|]. done.
Qed.

(** X9.  A [flush] that runs alone never sends an empty batch.  But the test
    of line 67 is made before the lock is taken: a thread that passed the test
    and finds the queue emptied by the time it gets the lock sends a request
    with no events. *)
Theorem flush_after_lost_race_sends_empty_batch σ t k :
  threads σ !! t = Some (FlushAcquire k) →
  lock (self (world σ)) = None →
  queue (self (world σ)) = [] →
  (∃ σ', exec (replicate 5 (Run t)) σ = Some σ'
         ∧ posts (world σ')
           = posts (world σ)
             ++ [(request_for (self (world σ)) [],
                  network (world σ) (length (posts (world σ))))]
         ∧ queue (self (world σ')) = [])
  ∧ (∀ t0 w, posts (world_of (flush t0 w)) = posts w
             ∨ ∃ r resp, posts (world_of (flush t0 w)) = posts w ++ [(r, resp)]
                         ∧ req_events r ≠ []).
Proof.
  intros Hp Hl Hq. split; [|apply flush_alone_sends_no_empty_batch].
  change (replicate 5 (Run t)) with [Run t; Run t; Run t; Run t; Run t].
  erewrite exec_run; [|done|simpl; unfold acquire_at; by rewrite Hl].
  erewrite exec_run; [|by eapply lookup_own_insert|done].
  cbn [threads world]. rewrite list_insert_insert_eq.
  erewrite exec_run; [|by eapply lookup_own_insert|done].
  cbn [threads world]. rewrite list_insert_insert_eq.
  erewrite exec_run; [|by eapply lookup_own_insert|done].
  cbn [threads world]. rewrite list_insert_insert_eq.
  remember (with_self (set_lock None) _) as w3 eqn:Hw3.
  assert (posts w3 = posts (world σ)) as Hp3 by (by subst w3).
  assert (network w3 = network (world σ)) as Hn3 by (by subst w3).
  assert (queue (self w3) = []) as Hq3 by (by subst w3).
  assert (request_for (self w3) (queue (self (world σ)))
          = request_for (self (world σ)) []) as Hr3.
  { subst w3. simpl. rewrite Hq. by destruct (self (world σ)). }
  destruct (network (world σ) (length (posts (world σ)))) as [|e] eqn:Hn.
  - erewrite exec_run; [|by eapply lookup_own_insert|].
    2:{ simpl. unfold post. rewrite Hn3, Hp3, Hn. reflexivity. }
    eexists. split; [reflexivity|]. simpl.
    by rewrite posts_observe, Hp3, Hr3.
  - erewrite exec_run; [|by eapply lookup_own_insert|].
    2:{ simpl. unfold post. rewrite Hn3, Hp3, Hn. reflexivity. }
    eexists. split; [reflexivity|]. simpl.
    by rewrite posts_observe, Hp3, Hr3.
Qed.

Lemma flush_after_lost_race_sends_empty_batch_witness :
  ∃ σ σ', exec timer_loses_race (start (example_client 10) always_accepts 1) = Some σ
          ∧ threads σ !! timer_tid = Some (FlushAcquire RetTimer)
          ∧ exec (replicate 5 (Run timer_tid)) σ = Some σ'
          ∧ (req_events ∘ fst) <$> posts (world σ')
            = [[mkEvent "a" [] None "session-3f2b" 0]; []].
Proof.
  eexists. 
  assert (∃ σ0, exec timer_loses_race (start (example_client 10) always_accepts 1)
                = Some σ0) as [σ0 H0] by (eexists; vm_compute; reflexivity).
  revert H0. vm_compute exec. intros [= <-].
  match goal with |- ∃ σ', Some ?s = _ ∧ _ =>
    destruct (flush_after_lost_race_sends_empty_batch s timer_tid RetTimer
                eq_refl eq_refl eq_refl) as [(σ' & Hex & Hposts & _) _]
  end.
  exists σ'. split; [reflexivity|]. split; [reflexivity|]. split; [exact Hex|].
  rewrite Hposts. reflexivity.
Defined.

(** ** The timer thread *)






(** ** The example application *)

(** X12.  The example application builds its client with a url that already
    ends in [/api/v1]; [flush] adds [/api/v1/events] to it.  So in every run
    of that client every request goes to [.../api/v1/api/v1/events], with the
    key of the example. *)
Theorem example_posts_to_doubled_path uuid net n ms σ :
  exec ms (start (example_analytics uuid) net n) = Some σ →
  Forall (λ x, req_url x.1 = "http://localhost:3001/api/v1/api/v1/events"
               ∧ req_api_key x.1 = Some "dev_key_123")
         (posts (world σ)).
Proof.
  intros Hs.
  pose proof (stamped_exec (example_analytics uuid) _ _ _ Hs
                (stamped_start (example_analytics uuid) net n eq_refl))
    as (_ & _ & _ & Hp & _).
  eapply Forall_impl; [exact Hp|]. intros [r resp] (Hu & Hk & _). by split.
Qed.

Lemma example_posts_to_doubled_path_witness :
  ∃ σ, exec (track_alone 1 "product_viewed" 0 ++ timer_drains ++ timer_gets_success)
            (start (example_analytics "3f2b") always_accepts 1) = Some σ
       ∧ length (posts (world σ)) = 1
       ∧ Forall (λ x, req_url x.1 = "http://localhost:3001/api/v1/api/v1/events"
                      ∧ req_api_key x.1 = Some "dev_key_123")
                (posts (world σ)).
Proof.
  assert (∃ σ0, exec (track_alone 1 "product_viewed" 0 ++ timer_drains
                      ++ timer_gets_success)
                     (start (example_analytics "3f2b") always_accepts 1)
                = Some σ0) as [σ0 H0] by (eexists; vm_compute; reflexivity).
  exists σ0. split; [exact H0|].
  split; [|exact (example_posts_to_doubled_path _ _ _ _ _ H0)].
  revert H0. vm_compute exec. by intros [= <-].
Defined.


(** ** Order of delivery *)

Lemma step_pc_ordered t p w p' w' :
  step_pc t p w = Some (p', w') →
  (∀ events k, p = FlushClear events k → queue (self w) = events) →
  appended w = delivered w ++ in_flight p ++ queue (self w) →
  appended w' = delivered w' ++ in_flight p' ++ queue (self w').
Proof.
  intros Hs Hc H.
  destruct p as [| |event|event| | |k|k|k|events k|events k|events k|events e k
                 |events k|events k|k|]; simpl in Hs; try done.
  - destruct (sleep_raises _); simplify_eq; [done|].
    by rewrite appended_observe, delivered_observe, !app_nil_r.
  - unfold acquire_at in Hs. destruct (lock (self w)); [done|]. by simplify_eq.
  - simplify_eq. rewrite appended_observe, delivered_observe, app_nil_r.
    rewrite appended_with_self, delivered_with_self, H. simpl.
    by rewrite <- !app_assoc.
  - destruct (decide _); simplify_eq; [|done].
    by rewrite appended_observe, delivered_observe, !app_nil_r.
  - by simplify_eq.
  - destruct (queue (self w)) eqn:Hq; simplify_eq; rewrite ?in_flight_resume, Hq; done.
  - unfold acquire_at in Hs. destruct (lock (self w)); [done|]. by simplify_eq.
  - by simplify_eq.
  - simplify_eq. rewrite (Hc events k eq_refl) in H. simpl in *.
    by rewrite appended_with_self, delivered_with_self, H, app_nil_r.
  - by simplify_eq.
  - unfold post in Hs.
    destruct (network w (length (posts w))) as [|e]; simplify_eq;
      rewrite appended_observe, delivered_observe, app_nil_r, H; simpl.
    + rewrite in_flight_resume. simpl. by rewrite <- !app_assoc.
    + by rewrite app_nil_r.
  - simplify_eq. by rewrite appended_observe, delivered_observe, !app_nil_r.
  - unfold acquire_at in Hs. destruct (lock (self w)); [done|]. by simplify_eq.
  - simplify_eq. by rewrite appended_with_self, delivered_with_self, H.
  - simplify_eq. by rewrite in_flight_resume.
Qed.

(** A thread that is not in a [flush] of its own only ever appends. *)
Lemma step_pc_outside_flush t p w p' w' :
  step_pc t p w = Some (p', w') →
  outside_flush p = true →
  (holds p = true ↔ lock (self w) = Some t) →
  outside_flush p' = true
  ∧ delivered w' = delivered w
  ∧ ((appended w' = appended w ∧ queue (self w') = queue (self w))
     ∨ ∃ e, appended w' = appended w ++ [e]
            ∧ queue (self w') = queue (self w) ++ [e]).
Proof.
  intros Hs Hp Hh.
  destruct p as [| |event|event| | |k|k|k|events k|events k|events k|events e k
                 |events k|events k|k|]; simpl in Hs; try done.
  - unfold acquire_at in Hs. destruct (lock (self w)); [done|]. simplify_eq.
    split; [done|]. split; [done|]. by left.
  - simplify_eq. split; [done|].
    rewrite appended_observe, delivered_observe, app_nil_r. split; [done|].
    right. by exists event.
  - destruct (decide _); simplify_eq; split; try done;
      rewrite ?appended_observe, ?delivered_observe, ?app_nil_r; split; try done;
      by left.
  - simplify_eq. split; [done|]. split; [done|]. by left.
  - destruct k; try done.
    destruct (queue (self w)) eqn:Hq; rewrite <- Hq; simplify_eq;
      split; try done; split; try done; by left.
  - destruct k; try done.
    unfold acquire_at in Hs. destruct Hh as [Hh _]. by rewrite Hh in Hs.
Qed.

Lemma outside_flush_in_flight p : outside_flush p = true → in_flight p = [].
Proof. by destruct p. Qed.

Lemma ordered_step m σ σ' :
  step m σ = Some σ' →
  calls_flush m = false →
  lock_discipline σ →
  (∀ t p, threads σ !! t = Some p → t ≠ timer_tid → outside_flush p = true) →
  (∃ p0, threads σ !! timer_tid = Some p0
         ∧ appended (world σ)
           = delivered (world σ) ++ in_flight p0 ++ queue (self (world σ))) →
  (∀ t p, threads σ' !! t = Some p → t ≠ timer_tid → outside_flush p = true)
  ∧ (∃ p0, threads σ' !! timer_tid = Some p0
           ∧ appended (world σ')
             = delivered (world σ') ++ in_flight p0 ++ queue (self (world σ'))).
Proof.
  intros Hs Hm Hd Hout (p0 & Hp0 & Hord).
  assert (∃ t p p' w',
            threads σ !! t = Some p
            ∧ σ' = mkState w' (<[t := p']> (threads σ))
            ∧ ((step_pc t p (world σ) = Some (p', w'))
               ∨ (p = Idle ∧ outside_flush p' = true
                  ∧ appended w' = appended (world σ)
                  ∧ delivered w' = delivered (world σ)
                  ∧ queue (self w') = queue (self (world σ)))))
    as (t & p & p' & w' & Hp & -> & Hstep).
  { destruct m as [t|t c]; simpl in Hs.
    - destruct (threads σ !! t) as [p|] eqn:Hp; [|done]. simpl in Hs.
      destruct (step_pc t p (world σ)) as [[p' w']|] eqn:Hstep; [|done].
      simpl in Hs. simplify_eq. exists t, p, p', w'. auto.
    - destruct (threads σ !! t) as [p|] eqn:Hp; [|done]. simpl in Hs.
      destruct p; try done.
      destruct c as [uid traits|event_name props now|]; simpl in Hs, Hm; simplify_eq.
      + eexists t, Idle, _, _. split; [done|]. split; [done|]. right. by repeat split.
      + eexists t, Idle, _, _. split; [done|]. split; [done|]. right. by repeat split. }
  destruct (Hd t p Hp) as (_ & Hh & Hc).
  destruct (decide (t = timer_tid)) as [->|Hne].
  - pose proof (eq_trans (eq_sym Hp) Hp0) as [= ->]. split.
    + intros t1 p1 H1 Hne1. simpl in H1. rewrite list_lookup_insert_ne in H1 by done.
      by eapply Hout.
    + exists p'. simpl. split; [by eapply lookup_own_insert|].
      destruct Hstep as [Hstep | (-> & Hpo' & Ha & Hdl & Hq)].
      * by eapply step_pc_ordered.
      * simpl in Hord.
        rewrite Ha, Hdl, Hq, (outside_flush_in_flight p') by done. done.
  - assert (outside_flush p = true) as Hpo by (by eapply Hout).
    assert (outside_flush p' = true
            ∧ delivered w' = delivered (world σ)
            ∧ ((appended w' = appended (world σ)
                ∧ queue (self w') = queue (self (world σ)))
               ∨ ∃ e, appended w' = appended (world σ) ++ [e]
                      ∧ queue (self w') = queue (self (world σ)) ++ [e]))
      as (Hpo' & Hdl & Hev).
    { destruct Hstep as [Hstep | (-> & ? & Ha & Hdl & Hq)].
      - by eapply step_pc_outside_flush.
      - split; [done|]. split; [done|]. by left. }
    split.
    + intros t1 p1 H1 Hne1. simpl in H1.
      destruct (decide (t1 = t)) as [->|Hne2].
      * rewrite (lookup_own_insert _ _ _ _ Hp) in H1. by simplify_eq.
      * rewrite list_lookup_insert_ne in H1 by done. by eapply Hout.
    + exists p0. simpl. split; [by rewrite list_lookup_insert_ne|].
      destruct Hev as [[Ha Hq] | (e & Ha & Hq)].
      * by rewrite Ha, Hdl, Hq.
      * by rewrite Ha, Hdl, Hq, Hord, <- !app_assoc.
Qed.

Lemma ordered_exec ms σ σ' :
  exec ms σ = Some σ' →
  forallb (λ m, negb (calls_flush m)) ms = true →
  lock_discipline σ → conserved σ →
  (∀ t p, threads σ !! t = Some p → t ≠ timer_tid → outside_flush p = true) →
  (∃ p0, threads σ !! timer_tid = Some p0
         ∧ appended (world σ)
           = delivered (world σ) ++ in_flight p0 ++ queue (self (world σ))) →
  ∃ p0, threads σ' !! timer_tid = Some p0
        ∧ appended (world σ')
          = delivered (world σ') ++ in_flight p0 ++ queue (self (world σ')).
Proof.
  revert σ. induction ms as [|m ms IH]; intros σ Hs Hms Hd Hc Hout Hord.
  { simpl in Hs. by simplify_eq. }
  simpl in Hs, Hms. apply andb_prop in Hms as [Hm Hms]. apply negb_true_iff in Hm.
  destruct (step m σ) as [σ1|] eqn:Hstep; [|done]. simpl in Hs.
  destruct (step_preserves m σ σ1 Hstep Hd Hc) as [Hd1 Hc1].
  destruct (ordered_step m σ σ1 Hstep Hm Hd Hout Hord) as [Hout1 Hord1].
  by eapply IH.
Qed.

(** X3.  As long as application code does not call [flush] itself, whatever
    the number of application threads, the interleaving with the timer thread
    and the answers of the collaborator: the events delivered so far, then
    the batch the timer thread holds between its drain and its request or
    requeue, then the queue, are the events appended so far, in the order in
    which they were appended.  So the collaborator gets the events in the
    order in which they entered the queue. *)
Theorem timer_flushes_keep_order url key bsize interval uuid net n ms σ :
  exec ms (start (new_Analytics url key bsize interval uuid) net n) = Some σ →
  forallb (λ m, negb (calls_flush m)) ms = true →
  ∃ p0, threads σ !! timer_tid = Some p0
        ∧ appended (world σ)
          = delivered (world σ) ++ in_flight p0 ++ queue (self (world σ)).
Proof.
  intros Hs Hms. eapply ordered_exec; [done|done| | | |].
  - apply start_discipline.
  - by apply start_conserved.
  - intros t p Hp Hne. destruct t as [|t]; [done|]. simpl in Hp.
    apply lookup_replicate in Hp as [-> _]. done.
  - by exists TimerSleep.
Qed.

Lemma timer_flushes_keep_order_witness :
  let a := mkEvent "a" [] None "session-3f2b" 0 in
  let b := mkEvent "b" [] None "session-3f2b" 1 in
  let c := mkEvent "c" [] None "session-3f2b" 2 in
  let d := mkEvent "d" [] None "session-3f2b" 3 in
  ∃ σ, exec retry_after_appends (start (example_client 3) fails_once 1) = Some σ
       ∧ forallb (λ m, negb (calls_flush m)) retry_after_appends = true
       ∧ appended (world σ) = [a; b; c; d]
       ∧ delivered (world σ) = [a; b; c; d]
       ∧ ∃ p0, threads σ !! timer_tid = Some p0
               ∧ appended (world σ)
                 = delivered (world σ) ++ in_flight p0 ++ queue (self (world σ)).
Proof.
  intros a b c d.
  assert (∃ σ0, exec retry_after_appends (start (example_client 3) fails_once 1)
                = Some σ0) as [σ0 H0] by (eexists; vm_compute; reflexivity).
  exists σ0. split; [exact H0|]. split; [reflexivity|].
  pose proof (timer_flushes_keep_order
                (Some "http://localhost:3001/api/v1") (Some "dev_key_123") 3 5 "3f2b"
                fails_once 1 retry_after_appends σ0 H0 eq_refl) as Hord.
  revert H0 Hord. vm_compute exec. intros [= <-] Hord.
  split; [reflexivity|]. split; [reflexivity|]. exact Hord.
Defined.

(** ** A collaborator that never accepts *)

Lemma step_pc_delivered t p w p' w' :
  step_pc t p w = Some (p', w') →
  network w' = network w
  ∧ (delivered w' = delivered w ∨ network w (length (posts w)) = Accepted).
Proof.
  intros Hs.
  destruct p as [| |event|event| | |k|k|k|events k|events k|events k|events e k
                 |events k|events k|k|]; simpl in Hs; try done;
    unfold acquire_at, post in Hs;
    try (destruct (network w (length (posts w))) eqn:Hn);
    repeat match type of Hs with
           | context [match ?x with _ => _ end] => destruct x
           end;
    simplify_eq; split; try done;
    rewrite ?delivered_observe, ?delivered_with_self, ?app_nil_r; auto.
Qed.

Lemma nothing_delivered_exec net ms σ σ' :
  (∀ i, net i ≠ Accepted) →
  exec ms σ = Some σ' →
  network (world σ) = net → delivered (world σ) = [] →
  network (world σ') = net ∧ delivered (world σ') = [].
Proof.
  intros Hnet. revert σ. induction ms as [|m ms IH]; intros σ Hs Hn Hd.
  { simpl in Hs. by simplify_eq. }
  simpl in Hs. destruct (step m σ) as [σ1|] eqn:Hstep; [|done]. simpl in Hs.
  apply (IH σ1 Hs).
  - destruct m as [t|t c]; simpl in Hstep.
    + destruct (threads σ !! t) as [p|]; [|done]. simpl in Hstep.
      destruct (step_pc t p (world σ)) as [[p' w']|] eqn:Hpc; [|done].
      simpl in Hstep. simplify_eq. simpl.
      destruct (step_pc_delivered _ _ _ _ _ Hpc) as [-> _]. done.
    + destruct (threads σ !! t) as [p|]; [|done]. simpl in Hstep.
      destruct p; try done. by destruct c; simpl in Hstep; simplify_eq.
  - destruct m as [t|t c]; simpl in Hstep.
    + destruct (threads σ !! t) as [p|]; [|done]. simpl in Hstep.
      destruct (step_pc t p (world σ)) as [[p' w']|] eqn:Hpc; [|done].
      simpl in Hstep. simplify_eq. simpl.
      destruct (step_pc_delivered _ _ _ _ _ Hpc) as [_ [-> | Hacc]]; [done|].
      by destruct (Hnet _ Hacc).
    + destruct (threads σ !! t) as [p|]; [|done]. simpl in Hstep.
      destruct p; try done.
      destruct c; simpl in Hstep; simplify_eq; simpl; try done.
      by rewrite delivered_observe, app_nil_r.
Qed.

(** X4.  With a collaborator that accepts no request, under every
    interleaving of the timer thread and the application threads: nothing is
    delivered and nothing is dropped.  Every event appended so far is in the
    queue or in a batch some [flush] holds between its drain and its requeue;
    when no batch is held, the queue holds them all. *)
Theorem failing_collaborator_keeps_everything url key bsize interval uuid net n ms σ :
  (∀ i, net i ≠ Accepted) →
  exec ms (start (new_Analytics url key bsize interval uuid) net n) = Some σ →
  delivered (world σ) = []
  ∧ appended (world σ) ≡ₚ all_in_flight σ ++ queue (self (world σ))
  ∧ (settled σ → appended (world σ) ≡ₚ queue (self (world σ))).
Proof.
  intros Hnet Hs.
  destruct (nothing_delivered_exec net _ _ _ Hnet Hs eq_refl eq_refl) as [_ Hd].
  destruct (reachable_invariants _ _ _ _ _ _ _ _ _ Hs) as [_ Hcv].
  unfold conserved in Hcv. rewrite Hd in Hcv. simpl in Hcv.
  split; [done|]. split; [done|].
  intros Hset. by rewrite (settled_nothing_in_flight _ Hset) in Hcv.
Qed.

Lemma failing_collaborator_keeps_everything_witness :
  let a := mkEvent "a" [] None "session-3f2b" 0 in
  let b := mkEvent "b" [] None "session-3f2b" 1 in
  let c := mkEvent "c" [] None "session-3f2b" 2 in
  let d := mkEvent "d" [] None "session-3f2b" 3 in
  (∀ i, always_fails i ≠ Accepted)
  ∧ ∃ σ, exec requeue_after_appends (start (example_client 3) always_fails 1) = Some σ
         ∧ settled σ
         ∧ queue (self (world σ)) = [a; b; c; d]
         ∧ delivered (world σ) = []
         ∧ appended (world σ) ≡ₚ queue (self (world σ)).
Proof.
  intros a b c d.
  assert (∀ i, always_fails i ≠ Accepted) as Hf by (intros i; discriminate).
  split; [exact Hf|].
  assert (∃ σ0, exec requeue_after_appends (start (example_client 3) always_fails 1)
                = Some σ0) as [σ0 H0] by (eexists; vm_compute; reflexivity).
  exists σ0. split; [exact H0|].
  destruct (failing_collaborator_keeps_everything
              (Some "http://localhost:3001/api/v1") (Some "dev_key_123") 3 5 "3f2b"
              always_fails 1 requeue_after_appends σ0 Hf H0) as (Hd & _ & Hall).
  revert H0 Hd Hall. vm_compute exec. intros [= <-] Hd Hall.
  split; [repeat constructor|]. split; [reflexivity|]. split; [exact Hd|].
  apply Hall. repeat constructor.
Defined.

(** ** The monadic methods and the machine *)

Lemma exec_app ms1 ms2 σ :
  exec (ms1 ++ ms2) σ = exec ms1 σ ≫= exec ms2.
Proof.
  revert σ. induction ms1 as [|m ms1 IH]; intros σ; [done|].
  simpl. destruct (step m σ) as [σ1|]; [apply IH | done].
Qed.

(** A call of thread [t] made while no other thread takes a step does, on
    the machine, what the monadic method computes. *)
Lemma run_call_exec t c σ :
  threads σ !! t = Some Idle →
  ∃ ms p', Forall (λ m, thread_of m = t) ms
           ∧ exec ms σ = Some (mkState (world_of (run_call t c (world σ)))
                                       (<[t := p']> (threads σ)))
           ∧ (returns (run_call t c (world σ)) = true → p' = Idle).
Proof.
  intros Hp. destruct c as [uid traits|event_name props now|].
  - exists [Invoke t (CIdentify uid traits)], Idle.
    split; [by repeat constructor|]. split; [|done].
    by rewrite (exec_invoke _ _ _ _ Hp).
  - set (event := make_event event_name props now (self (world σ))).
    set (σ0 := mkState (world σ) (<[t := TrackAcquire event]> (threads σ))).
    destruct (solo_exec 4 t (TrackAcquire event) σ0) as (ms & Hms & Hex).
    { by eapply lookup_own_insert. }
    exists (Invoke t (CTrack event_name props now) :: ms),
           (solo 4 t (TrackAcquire event) (world σ)).1.
    split.
    { constructor; [done|]. eapply Forall_impl; [exact Hms|]. by intros m ->. }
    rewrite (exec_invoke _ _ _ _ Hp). cbn [start_call fst snd]. fold event. fold σ0.
    rewrite Hex. subst σ0. cbn [world threads]. rewrite list_insert_insert_eq.
    pose proof (solo_track t event_name props now (world σ) 0) as Hsolo.
    cbn [Nat.add] in Hsolo. fold event in Hsolo. rewrite Hsolo.
    simpl. destruct (track t event_name props now (world σ)); simpl; by split.
  - set (σ0 := mkState (observe ActFlush (world σ))
                       (<[t := FlushTest RetCaller]> (threads σ))).
    destruct (solo_exec 10 t (FlushTest RetCaller) σ0) as (ms & Hms & Hex).
    { by eapply lookup_own_insert. }
    exists (Invoke t CFlush :: ms),
           (solo 10 t (FlushTest RetCaller) (observe ActFlush (world σ))).1.
    split.
    { constructor; [done|]. eapply Forall_impl; [exact Hms|]. by intros m ->. }
    rewrite (exec_invoke _ _ _ _ Hp). cbn [start_call fst snd]. fold σ0.
    rewrite Hex. subst σ0. cbn [world threads]. rewrite list_insert_insert_eq.
    pose proof (solo_flush t (world σ) 0) as Hsolo.
    cbn [Nat.add] in Hsolo. rewrite Hsolo.
    simpl. destruct (flush t (world σ)); simpl; by split.
Qed.

(** So is a run of calls: what [run_calls] computes is what the client does
    in the runs in which thread [t] makes these calls and no other thread,
    the timer thread included, takes a step in between. *)
Lemma run_calls_exec t cs σ :
  threads σ !! t = Some Idle →
  ∃ ms p', Forall (λ m, thread_of m = t) ms
           ∧ exec ms σ = Some (mkState (world_of (run_calls t cs (world σ)))
                                       (<[t := p']> (threads σ)))
           ∧ (returns (run_calls t cs (world σ)) = true → p' = Idle).
Proof.
  revert σ. induction cs as [|c cs IH]; intros σ Hp.
  { exists [], Idle. split; [constructor|]. split; [|done].
    simpl. rewrite list_insert_id by done. by destruct σ. }
  destruct (run_call_exec t c σ Hp) as (ms1 & p1 & Hms1 & Hex1 & Hret1).
  simpl. unfold mbind, M_bind.
  destruct (run_call t c (world σ)) as [[] w1|w1] eqn:Hc; simpl in *.
  - rewrite (Hret1 eq_refl) in Hex1.
    destruct (IH (mkState w1 (<[t := Idle]> (threads σ)))) as (ms2 & p2 & Hms2 & Hex2 & Hret2).
    { simpl. by eapply lookup_own_insert. }
    exists (ms1 ++ ms2), p2. split; [by apply Forall_app|].
    rewrite exec_app, Hex1. simpl. rewrite Hex2. simpl.
    by rewrite list_insert_insert_eq.
  - exists ms1, p1. by split.
Qed.

End MachineExtra.
